(** * disco-sdk: the FIFO lock, the keyed lock manager and the
      multi-sig replay-protection nonce source.

    Shallow embedding of [src/utils/lock.ts] and
    [src/module/MultiSigNonce.ts] (classes [Lock], [LockManager],
    [ReplayGuard], [MultiSigReplayProtection]), followed by the big
    integer helpers of [tests/bigint.test.js] and the class [Logger].

    Conventions of the embedding.
    - A JavaScript object mutated in place is a value threaded through a
      state monad; a [throw] (or a rejected promise) is the [Throw]
      completion, which leaves the state as it was when the exception
      was raised.
    - The entries of [Lock.waiters] are the [resolve] callbacks of pending
      promises.  A callback is identified by the caller it resumes (a
      [waiter]); calling it is an output of the operation, recorded in
      the order of the calls.
    - A [number] holding a nonce is the integer it denotes; [+ 1] on it
      is the addition of the language, which rounds to a significand of
      53 bits ([Number.succ]): exact below 2^53 and not above.
    - The provider, the contract handles ([GnosisSafeFactory] and
      [ReplayProtectionFactory], whose imports the sources leave out),
      the [BigNumber] constructor, the hash and the ABI coder are
      collaborators from outside [src/]: what they answer, a value or an
      exception, is a parameter of the embedding. *)

From Stdlib Require Import ZArith Lia.
From stdpp Require Import base option list strings pretty gmap.

(** ** Completions and errors *)

(** What the repository throws, and what the outside world may reject
    with.  [lock.ts] throws [VError]s; [TypeError] is the runtime's own
    exception for a method called on [undefined] or on a value that has
    no such method. *)
Inductive error : Type :=
| VError (message : string)
| TypeError (message : string)
| ExternalError (payload : string).

Inductive completion (A : Type) : Type :=
| Normal (a : A)
| Throw (e : error).
Arguments Normal {A} a.
Arguments Throw {A} e.

(** The caller resumed by a [resolve] callback. *)
Abbreviation waiter := nat (only parsing).

(** ** State, exception and output monad

    [M S A]: a computation over a mutable object of type [S], which
    completes with an [A] or throws, and which calls a sequence of
    [resolve] callbacks on the way. *)
Definition M (S A : Type) : Type := S → completion A * S * list waiter.

#[global] Instance M_ret {S} : MRet (M S) := λ A a s, (Normal a, s, []).

#[global] Instance M_bind {S} : MBind (M S) := λ A B k c s,
  match c s with
  | (Normal a, s1, out1) =>
      let '(r, s2, out2) := k a s1 in (r, s2, out1 ++ out2)
  | (Throw e, s1, out1) => (Throw e, s1, out1)
  end.

(** [try { body } finally { fin }]: [fin] runs on both completions of
    [body]; when [fin] itself throws, its exception replaces the
    completion of [body]. *)
Definition try_finally {S A} (body : M S A) (fin : M S unit) : M S A :=
  λ s, let '(r, s1, out1) := body s in
       match fin s1 with
       | (Normal _, s2, out2) => (r, s2, out1 ++ out2)
       | (Throw e, s2, out2) => (Throw e, s2, out1 ++ out2)
       end.

Definition throw {S A} (e : error) : M S A := λ s, (Throw e, s, []).
Definition get {S} : M S S := λ s, (Normal s, s, []).
Definition put {S} (s : S) : M S unit := λ _, (Normal tt, s, []).
Definition resolve {S} (w : waiter) : M S unit := λ s, (Normal tt, s, [w]).

(** What a call of an [async] method has come to when it hands control
    back: settled, or pending on the lock. *)
Inductive async (T : Type) : Type :=
| Settled (r : completion T)
| Pending.
Arguments Settled {T} r.
Arguments Pending {T}.

(** ** [Lock] (src/utils/lock.ts) *)
Module Lock.

Record t : Type := mk { waiters : list waiter; mLocked : bool }.

(** [new Lock()] *)
Definition new : t := mk [] false.

(** [get locked()] *)
Definition locked : M t bool := l ← get; mret (mLocked l).

(** How the promise returned by [acquire] stands when [acquire]
    returns: already resolved, or pending until a [release] calls the
    queued [resolve]. *)
Inductive grant : Type := Granted | Suspended.

(** [acquire()], called by [w]. *)
Definition acquire (w : waiter) : M t grant :=
  l ← get;
  if negb (mLocked l) then
    put (mk (waiters l) true);;
    mret Granted
  else
    (* new Promise(resolve => this.waiters.push(resolve)) *)
    put (mk (waiters l ++ [w]) (mLocked l));;
    mret Suspended.

(** [release()] *)
Definition release : M t unit :=
  l ← get;
  if negb (mLocked l) then
    throw (VError "Tried to release a Lock that was not locked")
  else
    match waiters l with
    | w :: ws =>
        (* const resolve = this.waiters.shift()!; resolve() *)
        put (mk ws (mLocked l));;
        resolve w
    | [] => put (mk [] false)
    end.

(** The successive values of the object while [release] runs on it:
    the value on entry, then the value after each assignment. *)
Definition release_states (l : t) : list t :=
  if negb (mLocked l) then [l]
  else match waiters l with
       | w :: ws => [l; mk ws (mLocked l)]
       | [] => [l; mk [] false]
       end.

(** A call made on a lock object. *)
Inductive op : Type := Acquire (w : waiter) | Release.

(** One call: the lock afterwards, the caller if it was put in the
    queue, and the callers resumed.  A [release] that throws leaves the
    lock as it was. *)
Definition call (o : op) (l : t) : t * list waiter * list waiter :=
  match o with
  | Acquire w =>
      match acquire w l with
      | (Normal Suspended, l', out) => (l', [w], out)
      | (_, l', out) => (l', [], out)
      end
  | Release => let '(_, l', out) := release l in (l', [], out)
  end.

(** A sequence of calls: the final lock, the callers enqueued and the
    callers resumed, each in the order it happened. *)
Fixpoint calls (os : list op) (l : t) : t * list waiter * list waiter :=
  match os with
  | [] => (l, [], [])
  | o :: os' =>
      let '(l1, enq1, res1) := call o l in
      let '(l2, enq2, res2) := calls os' l1 in
      (l2, enq1 ++ enq2, res1 ++ res2)
  end.

End Lock.

(** ** [LockManager] (src/utils/lock.ts)

    [locks] is a plain object ([{}]) used as a dictionary from keys to
    [Lock]s.  The dictionary [t] holds its own properties, the locks
    made by [acquire]; a key that is not among them is looked up in
    [Object.prototype], as [this.locks[key]] does. *)
Module LockManager.

Abbreviation t := (gmap string Lock.t).

Definition new : t := ∅.

(** The property names of [Object.prototype].  Each holds a function
    (or, for [__proto__], an object): a value that is truthy and has no
    method [acquire] or [release]. *)
Definition Object_prototype : list string :=
  ["constructor"; "hasOwnProperty"; "isPrototypeOf"; "propertyIsEnumerable";
   "toLocaleString"; "toString"; "valueOf"; "__proto__";
   "__defineGetter__"; "__defineSetter__"; "__lookupGetter__"; "__lookupSetter__"].

Definition inherited (key : string) : bool :=
  bool_decide (key ∈ Object_prototype).

(** [!this.locks[key]]: [key] is no own property and no inherited
    one. *)
Definition no_lock (key : string) (m : t) : bool :=
  bool_decide (m !! key = None) && negb (inherited key).

(** [this.locks[key].method()]: the lock is a shared object, so what
    the method does to it is seen through the dictionary.  On a value
    inherited from [Object.prototype] the method is [undefined] and the
    call throws; so does the property access on [undefined]. *)
Definition on_lock {A} (key : string) (c : M Lock.t A) : M t A :=
  λ m, match m !! key with
       | Some l => let '(r, l', out) := c l in (r, <[key := l']> m, out)
       | None =>
           (Throw (TypeError (if inherited key
                              then "this.locks[key].method is not a function"
                              else "Cannot read properties of undefined")), m, [])
       end.

(** [acquire(key)], called by [w]. *)
Definition acquire (key : string) (w : waiter) : M t Lock.grant :=
  m ← get;
  (if no_lock key m then put (<[key := Lock.new]> m) else mret tt);;
  on_lock key (Lock.acquire w).

(** [release(key)] *)
Definition release (key : string) : M t unit :=
  m ← get;
  if no_lock key m then
    throw (VError ("There is no lock for key " +:+ key))
  else
    on_lock key Lock.release;;
    isLocked ← on_lock key Lock.locked;
    if negb isLocked then
      m' ← get; put (delete key m')
    else mret tt.

(** The part of [withLock] that runs once the lock is held: on the
    spot when [acquire] was granted, or when a [release] resumes the
    caller.
    [try { ...; return await func(); } finally { this.release(key); }] *)
Definition withLock_held {T} (key : string) (func : M t T) : M t T :=
  try_finally func (release key).

(** [withLock(key, func)], called by [w].  [func] is any computation:
    it may itself use the manager. *)
Definition withLock {T} (key : string) (w : waiter) (func : M t T)
  : t → async T * t * list waiter :=
  λ m, match acquire key w m with
       | (Normal Lock.Granted, m1, out1) =>
           let '(r, m2, out2) := withLock_held key func m1 in
           (Settled r, m2, out1 ++ out2)
       | (Normal Lock.Suspended, m1, out1) => (Pending, m1, out1)
       | (Throw e, m1, out1) =>
           let '(r, m2, out2) := release key m1 in
           (Settled (Throw (match r with Throw e' => e' | Normal _ => e end)),
            m2, out1 ++ out2)
       end.

(** The lock a key stands for: the one in the dictionary, or the fresh
    lock [acquire] would create for it. *)
Definition lock_of (key : string) (m : t) : Lock.t :=
  default Lock.new (m !! key).

(** The lock of [key] is in the dictionary and locked. *)
Definition held (key : string) (m : t) : Prop :=
  ∃ l, m !! key = Some l ∧ Lock.mLocked l = true.

(** A call made on the manager. *)
Inductive op : Type :=
| Acquire (key : string) (w : waiter)
| Release (key : string).

(** The dictionary after one call; a [release] that throws leaves it
    as it was. *)
Definition call (o : op) (m : t) : t :=
  match o with
  | Acquire key w => (acquire key w m).1.2
  | Release key => (release key m).1.2
  end.

Fixpoint calls (os : list op) (m : t) : t :=
  match os with
  | [] => m
  | o :: os' => calls os' (call o m)
  end.

(** Every lock in the dictionary is locked. *)
Definition all_locked (m : t) : Prop :=
  ∀ key l, m !! key = Some l → Lock.mLocked l = true.

End LockManager.

(** * Numbers

    The integers a [number] holds, and [+ 1] on them.  A [number] has a
    significand of 53 bits: an integer [m] is held as it is when
    [|m| ≤ 2^53], and the result of an addition is the nearest integer
    that a [number] holds, the one with the even significand when two
    are as near. *)
Module Number.

(** The distance between the [number]s around [m]. *)
Definition ulp (m : Z) : Z := (2 ^ Z.max 0 (Z.log2 (Z.abs m) - 52))%Z.

(** The [number] nearest to the integer [m]. *)
Definition round (m : Z) : Z :=
  let q := ulp m in
  let k := (m / q)%Z in
  let r := (m mod q)%Z in
  if (2 * r <? q)%Z then (k * q)%Z
  else if (q <? 2 * r)%Z then ((k + 1) * q)%Z
  else if Z.even k then (k * q)%Z else ((k + 1) * q)%Z.

(** [n + 1] *)
Definition succ (n : Z) : Z := round (n + 1).

(** [n + 1 + ... + 1], with [d] additions. *)
Definition after (d : nat) (n : Z) : Z := Nat.iter d succ n.

End Number.

(** * Replay protection (src/module/MultiSigNonce.ts) *)

(** The calls that leave the process. *)
Inductive query : Type :=
| GetCode      (* signer.provider.getCode(forwarderAddress) *)
| SafeNonce    (* gnosisSafe.nonce(), read with toNumber() *)
| GetAddress   (* signer.getAddress() *)
| NonceStore.  (* replayProtection.nonceStore(onchainId) *)

(** What the outside world answers while one call runs.  A reply is the
    awaited value, or the rejection of the promise; for [safeNonce] the
    value is the [number] [toNumber()] gives, and a [toNumber()] that
    throws is a rejection. *)
Record Chain : Type := mkChain {
  getCode : completion string;
  safeNonce : completion Z;
  getAddress : completion string;
  nonceStore : string → completion Z   (* by [onchainId] *)
}.

(** What [ReplayGuard] calls that does not leave the process: each of
    these completes with a value or throws. *)
Record Guard : Type := mkGuard {
  (* new BigNumber("0") *)
  newBigNumber : completion Z;
  (* new ReplayProtectionFactory(this.signer).attach(this.forwarderAddress) *)
  attach : completion unit;
  (* keccak256(defaultAbiCoder.encode([...], [address, index, this.address])) *)
  onchainId : string → Z → completion string
}.

Module MultiSigReplayProtection.

(** The fields of an instance, and [asked], the external calls it has
    made so far (a ghost field, oldest first).  [nonce] is [undefined]
    until it is first assigned. *)
Record t : Type := mk {
  lock : Lock.t;
  nonce : option Z;
  asked : list query
}.

(** [new MultiSigReplayProtection(signer, forwarderAddress)] *)
Definition new : t := mk Lock.new None [].

Definition set_nonce (n : Z) : M t unit :=
  λ s, (Normal tt, mk (lock s) (Some n) (asked s), []).

(** [await] of an external call [q] that settles as [reply]. *)
Definition await {A} (q : query) (reply : completion A) : M t A :=
  λ s, (reply, mk (lock s) (nonce s) (asked s ++ [q]), []).

(** [this.lock.method()] *)
Definition on_lock {A} (c : M Lock.t A) : M t A :=
  λ s, let '(r, l', out) := c (lock s) in (r, mk l' (nonce s) (asked s), out).

(** A call that stays in the process and completes as [reply]. *)
Definition external {A} (reply : completion A) : M t A :=
  λ s, (reply, s, []).

(** [accessNonceStore(index)], inherited from [ReplayGuard]. *)
Definition accessNonceStore (chain : Chain) (guard : Guard) (index : Z) : M t Z :=
  code ← await GetCode (getCode chain);
  let codeIsEmpty :=
    (* !code || code === "0x" || code === "0x0" *)
    bool_decide (code = EmptyString) || bool_decide (code = "0x")
    || bool_decide (code = "0x0") in
  if codeIsEmpty then
    external (newBigNumber guard)
  else
    external (attach guard);;
    address ← await GetAddress (getAddress chain);
    onchainId ← external (onchainId guard address index);
    await NonceStore (nonceStore chain onchainId).

(** [getNonce()], run to its end with the replies of [chain]. *)
Definition getNonce (chain : Chain) : M t Z :=
  s ← get;
  match nonce s with
  | None =>
      isDeployed ← await GetCode (getCode chain);
      if bool_decide (isDeployed ≠ "0x") then
        n ← await SafeNonce (safeNonce chain);
        set_nonce n;;
        mret n
      else
        set_nonce 0;;
        mret 0%Z
  | Some n =>
      set_nonce (Number.succ n);;
      mret (Number.succ n)
  end.

Section Encoded.
(** [defaultAbiCoder.encode(["uint"], [n])]: the encoding, or the
    exception of a coder that refuses [n]. *)
Variable encode : Z → completion string.

(** The part of [getEncodedReplayProtection] that runs once the
    lock is held. *)
Definition getEncodedReplayProtection_held (chain : Chain) : M t string :=
  try_finally (n ← getNonce chain; external (encode n)) (on_lock Lock.release).

(** [getEncodedReplayProtection()], called by [w], with nothing else
    running in between. *)
Definition getEncodedReplayProtection (chain : Chain) (w : waiter)
  : t → async string * t * list waiter :=
  λ s, match on_lock (Lock.acquire w) s with
       | (Normal Lock.Granted, s1, out1) =>
           let '(r, s2, out2) := getEncodedReplayProtection_held chain s1 in
           (Settled r, s2, out1 ++ out2)
       | (Normal Lock.Suspended, s1, out1) => (Pending, s1, out1)
       | (Throw e, s1, out1) =>
           let '(r, s2, out2) := on_lock Lock.release s1 in
           (Settled (Throw (match r with Throw e' => e' | Normal _ => e end)),
            s2, out1 ++ out2)
       end.
End Encoded.

(** A safe deployed at the forwarder address, whose [nonce()] is 41. *)
Definition safe41 : Chain :=
  mkChain (Normal "0x6080604052") (Normal 41%Z) (Normal "0x01") (λ _, Normal 0%Z).

(** A safe deployed at the forwarder address, whose [nonce()] is [v]. *)
Definition safe (v : Z) : Chain :=
  mkChain (Normal "0x6080604052") (Normal v) (Normal "0x01") (λ _, Normal 0%Z).

(** Two coders, for the examples: one that encodes every number (as
    its decimal numeral), and one that, as the coder of
    [@ethersproject/abi] does with a [number], refuses what is negative
    or not below 2^53 - 1. *)
Definition decimal (n : Z) : completion string := Normal (pretty n).

Definition safe_uint (n : Z) : completion string :=
  if bool_decide (0 ≤ n < 2 ^ 53 - 1)%Z then Normal (pretty n)
  else Throw (ExternalError "overflow").

(** The [BigNumber] constructor of [@ethersproject/bignumber] takes a
    guard as its first argument and throws when called as
    [new BigNumber("0")]; the rest answers. *)
Definition ethers : Guard :=
  mkGuard (Throw (ExternalError "cannot call constructor directly; use BigNumber.from"))
          (Normal tt) (λ address _, Normal address).

End MultiSigReplayProtection.

(** ** Concurrent calls on one instance

    JavaScript runs one continuation at a time, each to its next
    [await].  A call of [getEncodedReplayProtection] is a task, at one
    of the program points below; an [event] runs one task from its
    program point to the next one.  Any order of events that the program
    points allow is a run. *)
Module Tasks.
Import MultiSigReplayProtection.

Inductive pc : Type :=
| NotCalled
| Ready                         (* the promise of [lock.acquire()] is resolved *)
| Queued                        (* its [resolve] is in [lock.waiters] *)
| AwaitingCode                  (* in [getNonce], at [await ...getCode(...)] *)
| AwaitingSafeNonce             (* in [getNonce], at [await gnosisSafe.nonce()] *)
| GotNonce (r : completion Z)   (* [getNonce] has settled as [r] *)
| Finished (r : completion string).

Record system : Type := mkSys {
  inst : MultiSigReplayProtection.t;
  tasks : list pc
}.

Inductive event : Type :=
| Call (i : nat)
| Enter (i : nat)
| CodeReply (i : nat) (r : completion string)
| NonceReply (i : nat) (r : completion Z)
| Leave (i : nat).

(** [k] calls on a fresh instance, none made yet. *)
Definition init (k : nat) : system :=
  mkSys MultiSigReplayProtection.new (replicate k NotCalled).

(** The external call [q] is made; its reply comes as a later event. *)
Definition issue (q : query) (s : t) : t :=
  mk (lock s) (nonce s) (asked s ++ [q]).

(** The callers whose [resolve] was called get ready to run. *)
Definition wake (ws : list waiter) (ts : list pc) : list pc :=
  foldr (λ w ts', <[w := Ready]> ts') ts ws.

Section Step.
Variable encode : Z → completion string.

(** The end of the [try] block with completion [body], and the
    [finally] block: [this.lock.release()]. *)
Definition finish (i : nat) (body : completion string) (s : system) : system :=
  let '(r, inst', out) := on_lock Lock.release (inst s) in
  let result := match r with Throw e => Throw e | Normal _ => body end in
  mkSys inst' (wake out (<[i := Finished result]> (tasks s))).

Definition step (s : system) (e : event) : option system :=
  match e with
  | Call i =>
      (* try { await this.lock.acquire(); *)
      match tasks s !! i with
      | Some NotCalled =>
          match on_lock (Lock.acquire i) (inst s) with
          | (Normal Lock.Granted, inst', _) =>
              Some (mkSys inst' (<[i := Ready]> (tasks s)))
          | (Normal Lock.Suspended, inst', _) =>
              Some (mkSys inst' (<[i := Queued]> (tasks s)))
          | (Throw e, inst', _) =>
              Some (finish i (Throw e) (mkSys inst' (tasks s)))
          end
      | _ => None
      end
  | Enter i =>
      (* this.getNonce(), up to its first await or its return *)
      match tasks s !! i with
      | Some Ready =>
          match nonce (inst s) with
          | None =>
              Some (mkSys (issue GetCode (inst s)) (<[i := AwaitingCode]> (tasks s)))
          | Some n =>
              Some (mkSys (mk (lock (inst s)) (Some (Number.succ n)) (asked (inst s)))
                          (<[i := GotNonce (Normal (Number.succ n))]> (tasks s)))
          end
      | _ => None
      end
  | CodeReply i r =>
      match tasks s !! i with
      | Some AwaitingCode =>
          match r with
          | Throw e => Some (mkSys (inst s) (<[i := GotNonce (Throw e)]> (tasks s)))
          | Normal isDeployed =>
              if bool_decide (isDeployed ≠ "0x") then
                Some (mkSys (issue SafeNonce (inst s))
                            (<[i := AwaitingSafeNonce]> (tasks s)))
              else
                Some (mkSys (mk (lock (inst s)) (Some 0%Z) (asked (inst s)))
                            (<[i := GotNonce (Normal 0%Z)]> (tasks s)))
          end
      | _ => None
      end
  | NonceReply i r =>
      match tasks s !! i with
      | Some AwaitingSafeNonce =>
          match r with
          | Throw e => Some (mkSys (inst s) (<[i := GotNonce (Throw e)]> (tasks s)))
          | Normal n =>
              Some (mkSys (mk (lock (inst s)) (Some n) (asked (inst s)))
                          (<[i := GotNonce (Normal n)]> (tasks s)))
          end
      | _ => None
      end
  | Leave i =>
      (* return defaultAbiCoder.encode(...) } finally { this.lock.release(); } *)
      match tasks s !! i with
      | Some (GotNonce r) =>
          Some (finish i (match r with
                          | Normal n => encode n
                          | Throw e => Throw e
                          end) s)
      | _ => None
      end
  end.

(** A run: the events happen in order, each allowed where it
    happens. *)
Fixpoint exec (sched : list event) (s : system) : option system :=
  match sched with
  | [] => Some s
  | e :: sched' =>
      match step s e with
      | Some s' => exec sched' s'
      | None => None
      end
  end.
End Step.

(** The callers of a run, in the order the calls were made. *)
Definition callers (sched : list event) : list nat :=
  omap (λ e, match e with Call i => Some i | _ => None end) sched.


Definition finished (s : system) : Prop :=
  ∀ i p, tasks s !! i = Some p → ∃ r, p = Finished r.

(** One call alone, from call to result, with the replies of
    [chain]. *)
Definition solo (chain : Chain) (s : t) (i : nat) : list event :=
  [Call i; Enter i] ++
  match nonce s with
  | Some _ => []
  | None =>
      CodeReply i (getCode chain) ::
      match getCode chain with
      | Normal isDeployed =>
          if bool_decide (isDeployed ≠ "0x")
          then [NonceReply i (safeNonce chain)] else []
      | Throw _ => []
      end
  end ++ [Leave i].

(** *** The invariant of the runs

    [K] calls are made in a world that reports the code [c] and the
    nonce [v]. *)
Section Invariant.
Variable encode : Z → completion string.
Variables (K : nat) (c : string) (v : Z).

(** The value the first read resolves to. *)
Definition first_value : Z := if bool_decide (c ≠ "0x") then v else 0%Z.

(** The external calls of the initial resolution. *)
Definition resolution : list query :=
  GetCode :: if bool_decide (c ≠ "0x") then [SafeNonce] else [].

(** [nonce] and [asked] once [d] calls have been served. *)
Definition cached (d : nat) : option Z :=
  match d with
  | O => None
  | S d' => Some (Number.after d' first_value)
  end.

Definition asked_after (d : nat) : list query :=
  match d with O => [] | S _ => resolution end.

(** What the program point of the task that holds the lock says of
    the instance, [d] calls having been served before it. *)
Definition at_pc (p : pc) (d : nat) (s : MultiSigReplayProtection.t) : Prop :=
  match p with
  | Ready => nonce s = cached d ∧ asked s = asked_after d
  | AwaitingCode => d = 0 ∧ nonce s = None ∧ asked s = [GetCode]
  | AwaitingSafeNonce =>
      d = 0 ∧ nonce s = None ∧ asked s = [GetCode; SafeNonce] ∧ c ≠ "0x"
  | GotNonce r =>
      r = Normal (Number.after d first_value) ∧
      nonce s = Some (Number.after d first_value) ∧
      asked s = resolution
  | _ => False
  end.

(** The callers so far, in order of arrival, are the callers served,
    then the holder of the lock, then the queue of the lock. *)
Record inv (arr served : list nat) (holder : option nat) (s : system) : Prop := {
  inv_length : length (tasks s) = K;
  inv_nodup : NoDup arr;
  inv_arr : arr = served ++ option_list holder ++ Lock.waiters (lock (inst s));
  inv_bound : ∀ i, i ∈ arr → i < K;
  inv_hold :
    match holder with
    | None =>
        lock (inst s) = Lock.new ∧
        nonce (inst s) = cached (length served) ∧
        asked (inst s) = asked_after (length served)
    | Some h =>
        Lock.mLocked (lock (inst s)) = true ∧
        ∃ p, tasks s !! h = Some p ∧ at_pc p (length served) (inst s)
    end;
  inv_served : ∀ j i,
    served !! j = Some i →
    tasks s !! i = Some (Finished (encode (Number.after j first_value)));
  inv_queued : ∀ i,
    i ∈ Lock.waiters (lock (inst s)) → tasks s !! i = Some Queued;
  inv_fresh : ∀ i, i < K → i ∉ arr → tasks s !! i = Some NotCalled
}.

End Invariant.

(** How many events a task still has before it, at most. *)
Definition rank (p : pc) : nat :=
  match p with
  | NotCalled => 6
  | Queued => 5
  | Ready => 4
  | AwaitingCode => 3
  | AwaitingSafeNonce => 2
  | GotNonce _ => 1
  | Finished _ => 0
  end.

Fixpoint remaining (ts : list pc) : nat :=
  match ts with
  | [] => 0
  | p :: ts' => rank p + remaining ts'
  end.

End Tasks.

(** * Big integers (src/tests/bigint.test.js)

    [BigInt] values are integers without bound.  [a ** b] throws a
    [RangeError] when [b] is negative, [a / b] throws one when [b] is
    zero and truncates towards zero otherwise.  A [while] loop and a
    recursive call each use up one unit of [fuel]; [OutOfFuel] is not
    a result of the program. *)
Module BigInt.

Inductive result (A : Type) : Type :=
| Value (a : A)
| RangeError
| OutOfFuel.
Arguments Value {A} a.
Arguments RangeError {A}.
Arguments OutOfFuel {A}.

#[global] Instance result_ret : MRet result := λ A a, Value a.

#[global] Instance result_bind : MBind result := λ A B k r,
  match r with
  | Value a => k a
  | RangeError => RangeError
  | OutOfFuel => OutOfFuel
  end.

(** [a ** b] *)
Definition pow (a b : Z) : result Z :=
  if (b <? 0)%Z then RangeError else Value (a ^ b)%Z.

(** [a / b] *)
Definition div (a b : Z) : result Z :=
  if (b =? 0)%Z then RangeError else Value (a ÷ b)%Z.

(** The first loop of [ilog2]:
    [while (n >= 2n**(2n**i)) { i += 1n; }], from [i]. *)
Fixpoint ilog2_up (fuel : nat) (n i : Z) : result Z :=
  match fuel with
  | O => OutOfFuel
  | S fuel' =>
      p ← pow 2 i;
      q ← pow 2 p;
      if (n >=? q)%Z then ilog2_up fuel' n (i + 1)%Z else Value i
  end.

(** The second loop of [ilog2]:
    [while (i >= 0n) { let b = 2n**i;
       if (n >= t * 2n**b) { t *= 2n**b; e += b; } i -= 1n; }] *)
Fixpoint ilog2_down (fuel : nat) (n i e t : Z) : result Z :=
  match fuel with
  | O => OutOfFuel
  | S fuel' =>
      if (i >=? 0)%Z then
        b ← pow 2 i;
        q ← pow 2 b;
        if (n >=? t * q)%Z
        then ilog2_down fuel' n (i - 1)%Z (e + b)%Z (t * q)%Z
        else ilog2_down fuel' n (i - 1)%Z e t
      else Value e
  end.

(** [ilog2(n)] *)
Definition ilog2 (fuel : nat) (n : Z) : result Z :=
  i ← ilog2_up fuel n 0%Z;
  ilog2_down fuel n i 0%Z 1%Z.

(** The loop of [sqrt]:
    [while (xprev > x) { xprev = x; x = (x + S / x) / 2n; }
     return xprev;] *)
Fixpoint sqrt_loop (fuel : nat) (s x xprev : Z) : result Z :=
  match fuel with
  | O => OutOfFuel
  | S fuel' =>
      if (xprev >? x)%Z then
        q ← div s x;
        x' ← div (x + q) 2;
        sqrt_loop fuel' s x' x
      else Value xprev
  end.

(** [sqrt(S)] *)
Fixpoint sqrt (fuel : nat) (s : Z) : result Z :=
  match fuel with
  | O => OutOfFuel
  | S fuel' =>
      e ← ilog2 fuel' s;
      if (e <? 2)%Z then Value 1%Z
      else
        d ← div e 4;
        let f := (d + 1)%Z in
        p ← pow 2 (f * 2);
        q ← div s p;
        r ← sqrt fuel' q;
        p' ← pow 2 f;
        let x := ((r + 1) * p')%Z in
        sqrt_loop fuel' s x (x + 1)%Z
  end.

(** [squareRoot(value, decimalDigits)], on the integers that
    [BigInt(value)] and [BigInt(decimalDigits)] give; [toString()] is
    the decimal numeral. *)
Definition squareRoot (fuel : nat) (value decimalDigits : Z) : result string :=
  p ← pow 10 (decimalDigits * 2 + 2);
  r ← sqrt fuel (value * p);
  mret (pretty (r + 5)%Z).

End BigInt.

(** * Using the locks: bookkeeping over sequences of calls *)
Module LockUse.
Import Lock.

Definition indicator (b : bool) : Z := if b then 1%Z else 0%Z.

(** What one call changes in the number of callers that hold the lock:
    an [acquire] granted on the spot adds one holder, a [release] that
    completes takes one away and adds each caller it resumes. *)
Definition handed (o : op) (l : t) : Z :=
  match o with
  | Acquire w =>
      match acquire w l with
      | (Normal Granted, _, _) => 1%Z
      | _ => 0%Z
      end
  | Release =>
      match release l with
      | (Normal _, _, out) => (Z.of_nat (length out) - 1)%Z
      | (Throw _, _, _) => 0%Z
      end
  end.

(** The holders gained over a sequence of calls. *)
Fixpoint holders (os : list op) (l : t) : Z :=
  match os with
  | [] => 0%Z
  | o :: os' => (handed o l + holders os' (call o l).1.1)%Z
  end.

End LockUse.

Module LockManagerUse.
Import LockManager.

Definition key_of (o : op) : string :=
  match o with Acquire key _ | Release key => key end.

(** The calls of a sequence that concern [key], as calls on its
    lock. *)
Definition on_key (key : string) (os : list op) : list Lock.op :=
  omap (λ o, match o with
             | Acquire k w => if decide (k = key) then Some (Lock.Acquire w) else None
             | Release k => if decide (k = key) then Some Lock.Release else None
             end) os.

(** The callers one call resumes. *)
Definition resumed_by (o : op) (m : t) : list waiter :=
  match o with
  | Acquire key w => (acquire key w m).2
  | Release key => (release key m).2
  end.

(** The callers resumed on [key] over a sequence of calls, in order. *)
Fixpoint resumed_on (key : string) (os : list op) (m : t) : list waiter :=
  match os with
  | [] => []
  | o :: os' =>
      (if decide (key_of o = key) then resumed_by o m else [])
      ++ resumed_on key os' (call o m)
  end.

(** What one call changes in the number of callers that hold the lock
    of its key, read off what the call returns: an [acquire] granted on
    the spot adds one holder, a [release] that completes takes one away
    and adds each caller it resumes. *)
Definition handed (o : op) (m : t) : Z :=
  match o with
  | Acquire key w =>
      match acquire key w m with
      | (Normal Lock.Granted, _, _) => 1%Z
      | _ => 0%Z
      end
  | Release key =>
      match release key m with
      | (Normal _, _, out) => (Z.of_nat (length out) - 1)%Z
      | (Throw _, _, _) => 0%Z
      end
  end.

(** The caller one call leaves waiting: the caller of an [acquire]
    whose promise is pending. *)
Definition enqueued_by (o : op) (m : t) : list waiter :=
  match o with
  | Acquire key w =>
      match acquire key w m with
      | (Normal Lock.Suspended, _, _) => [w]
      | _ => []
      end
  | Release _ => []
  end.

(** Over a sequence of calls: the callers that hold the lock of [key]
    (given it and not yet through their [release]), the callers put to
    wait for it, and those of them not yet resumed. *)
Fixpoint holders (key : string) (os : list op) (m : t) : Z :=
  match os with
  | [] => 0%Z
  | o :: os' =>
      ((if decide (key_of o = key) then handed o m else 0) + holders key os' (call o m))%Z
  end.

Fixpoint enqueued_on (key : string) (os : list op) (m : t) : list waiter :=
  match os with
  | [] => []
  | o :: os' =>
      (if decide (key_of o = key) then enqueued_by o m else [])
      ++ enqueued_on key os' (call o m)
  end.

Definition waiting (key : string) (os : list op) (m : t) : list waiter :=
  drop (length (resumed_on key os m)) (enqueued_on key os m).

(** [1] when [key] is an own property of the dictionary, [0] when it
    is not; and the queue of its lock. *)
Definition present (key : string) (m : t) : Z :=
  match m !! key with Some _ => 1%Z | None => 0%Z end.

Definition queue (key : string) (m : t) : list waiter :=
  match m !! key with Some l => Lock.waiters l | None => [] end.

End LockManagerUse.

(** * Concurrent calls, whatever the outside world answers *)
Module AnyWorld.
Import MultiSigReplayProtection Tasks.

(** The program points between [lock.acquire()] and [lock.release()]. *)
Definition inside (p : pc) : Prop :=
  match p with
  | Ready | AwaitingCode | AwaitingSafeNonce | GotNonce _ => True
  | _ => False
  end.

(** The replies of a run are [rc] for [getCode] and [rn] for
    [nonce()]. *)
Definition replies (rc : completion string) (rn : completion Z) (e : event) : Prop :=
  match e with
  | CodeReply _ r => r = rc
  | NonceReply _ r => r = rn
  | _ => True
  end.

Section Invariant.
Variable encode : Z → completion string.
Variable K : nat.

(** [nonce] once [d] calls have succeeded, the first of them with the
    value [b]. *)
Definition cached (b : Z) (d : nat) : option Z :=
  match d with
  | O => None
  | S d' => Some (Number.after d' b)
  end.

(** What the program point of the holder of the lock says of [nonce],
    [d] calls having succeeded before it. *)
Definition at_pc (b : Z) (d : nat) (p : pc) (s : MultiSigReplayProtection.t) : Prop :=
  match p with
  | Ready => nonce s = cached b d
  | AwaitingCode | AwaitingSafeNonce => d = 0 ∧ nonce s = None
  | GotNonce (Normal x) => x = Number.after d b ∧ nonce s = Some x
  | GotNonce (Throw _) => d = 0 ∧ nonce s = None
  | _ => False
  end.

(** The result of the [j]-th caller served: the reads of the first
    [failed] callers were rejected, the later callers read [b],
    [b + 1], ... and completed as the coder did on what they read. *)
Definition result_ok (b : Z) (failed j : nat) (r : completion string) : Prop :=
  if decide (j < failed) then ∃ e, r = Throw e
  else r = encode (Number.after (j - failed) b).

Record inv (b : Z) (failed : nat) (arr served : list nat) (holder : option nat)
    (s : system) : Prop := {
  inv_length : length (tasks s) = K;
  inv_nodup : NoDup arr;
  inv_arr : arr = served ++ option_list holder ++ Lock.waiters (lock (inst s));
  inv_bound : ∀ i, i ∈ arr → i < K;
  inv_failed : failed ≤ length served;
  inv_hold :
    match holder with
    | None =>
        lock (inst s) = Lock.new ∧
        nonce (inst s) = cached b (length served - failed)
    | Some h =>
        Lock.mLocked (lock (inst s)) = true ∧
        ∃ p, tasks s !! h = Some p ∧ at_pc b (length served - failed) p (inst s)
    end;
  inv_served : ∀ j i,
    served !! j = Some i →
    ∃ r, tasks s !! i = Some (Finished r) ∧ result_ok b failed j r;
  inv_queued : ∀ i,
    i ∈ Lock.waiters (lock (inst s)) → tasks s !! i = Some Queued;
  inv_fresh : ∀ i, i < K → i ∉ arr → tasks s !! i = Some NotCalled
}.

End Invariant.

End AnyWorld.

(** * The logger (class [Logger], unnamed/part_000)

    A [Logger] wraps a pino logger of its own and keeps the array
    [children] of the loggers made from it with [storedChild].  Loggers
    are objects: the one [storedChild] returns is the one held in
    [children], so the loggers live in a store and are named by their
    place in it.  pino is outside [src/]: of the wrapped pino logger the
    embedding keeps only the assignments [pino.level = newLevel] made to
    it, as the output of the [level] setter (pino takes each of the five
    level names, so the assignment does not throw). *)
Module Logger.

Inductive LogLevel : Type :=
| level_debug | level_info | level_warn | level_error | level_silent.

(** The fields [children] and [mLevel] of a logger; [mLevel] is declared
    without a value. *)
Record t : Type := mk {
  children : list nat;
  mLevel : option LogLevel
}.

(** [new Logger(pino)] *)
Definition alloc (σ : list t) : nat * list t :=
  (length σ, σ ++ [mk [] None]).

(** [Logger.getLogger(name, level)]: neither argument reaches the
    [Logger] made. *)
Definition getLogger (name : string) (level : LogLevel) (σ : list t) : nat * list t :=
  alloc σ.

(** [this.child(bindings)] *)
Definition child (this : nat) (σ : list t) : option (nat * list t) :=
  _ ← σ !! this; Some (alloc σ).

(** [this.storedChild(bindings)] *)
Definition storedChild (this : nat) (σ : list t) : option (nat * list t) :=
  l ← σ !! this;
  let '(result, σ1) := alloc σ in
  Some (result, <[this := mk (children l ++ [result]) (mLevel l)]> σ1).

(** [this.level] *)
Definition level (this : nat) (σ : list t) : option (option LogLevel) :=
  mLevel <$> σ !! this.

(** [for (const child of cs) body(child)], the outputs in order. *)
Definition for_of {A} (body : nat → option (list A)) : list nat → option (list A) :=
  fix go cs :=
    match cs with
    | [] => Some []
    | c :: cs => t1 ← body c; t2 ← go cs; Some (t1 ++ t2)
    end.

(** [this.level = newLevel]: the assignments [pino.level = newLevel]
    it makes, as pairs of the logger whose pino logger is assigned and
    the level, in the order they are made.  The setter writes no field
    of a [Logger].  [None] when the fuel runs out (or [this] is no
    logger of the store). *)
Fixpoint set_level (fuel : nat) (newLevel : LogLevel) (σ : list t) (this : nat)
  : option (list (nat * LogLevel)) :=
  match fuel with
  | O => None
  | S fuel =>
      l ← σ !! this;
      tr ← for_of (set_level fuel newLevel σ) (children l);
      Some ((this, newLevel) :: tr)
  end.

(** What a program does with loggers. *)
Inductive op : Type :=
| GetLogger (name : string) (level : LogLevel)
| StoredChild (this : nat)
| Child (this : nat)
| SetLevel (this : nat) (newLevel : LogLevel).

Definition call (o : op) (σ : list t) : option (list t) :=
  match o with
  | GetLogger name lv => Some (getLogger name lv σ).2
  | StoredChild this => snd <$> storedChild this σ
  | Child this => snd <$> child this σ
  | SetLevel this lv => _ ← set_level (length σ) lv σ this; Some σ
  end.

Fixpoint calls (os : list op) (σ : list t) : option (list t) :=
  match os with
  | [] => Some σ
  | o :: os => σ1 ← call o σ; calls os σ1
  end.

(** [c] is in the array [children] of [r]. *)
Definition child_of (σ : list t) (r c : nat) : Prop :=
  ∃ l, σ !! r = Some l ∧ c ∈ children l.

(** [i] is [r] or was made from it by [storedChild] calls only. *)
Definition stored_under (σ : list t) : nat → nat → Prop := rtc (child_of σ).

(** The loggers of a store form a forest. *)
Record forest (σ : list t) : Prop := {
  forest_later : ∀ r c, child_of σ r c → r < c < length σ;
  forest_parent : ∀ r r' c, child_of σ r c → child_of σ r' c → r = r';
  forest_nodup : ∀ r l, σ !! r = Some l → NoDup (children l)
}.

(** The assignments [tr] are one to each logger that is [r] or stored
    under it, [r] first, all of the level [lv]. *)
Definition reaches (σ : list t) (lv : LogLevel) (r : nat) (tr : list (nat * LogLevel)) : Prop :=
  NoDup tr.*1 ∧
  (∀ i, i ∈ tr.*1 ↔ stored_under σ r i) ∧
  (∀ x, x ∈ tr → x.2 = lv) ∧
  head tr = Some (r, lv).

End Logger.

(** * Properties of [Lock] *)

Ltac munfold :=
  cbv [mbind M_bind mret M_ret get put throw resolve try_finally] in *.

Module LockFacts.
Import Lock.

Lemma acquire_unlocked ws w :
  acquire w (mk ws false) = (Normal Granted, mk ws true, []).
Proof. reflexivity. Qed.

Lemma acquire_locked ws w :
  acquire w (mk ws true) = (Normal Suspended, mk (ws ++ [w]) true, []).
Proof. reflexivity. Qed.

Lemma release_unlocked ws :
  release (mk ws false)
  = (Throw (VError "Tried to release a Lock that was not locked"), mk ws false, []).
Proof. reflexivity. Qed.

Lemma release_handoff w ws :
  release (mk (w :: ws) true) = (Normal tt, mk ws true, [w]).
Proof. reflexivity. Qed.

Lemma release_last :
  release (mk [] true) = (Normal tt, mk [] false, []).
Proof. reflexivity. Qed.

(** One call keeps the queue discipline: what was waiting plus what
    was enqueued is what was resumed followed by what still waits. *)
Lemma call_queue o l :
  let '(l', enq, res) := call o l in
  waiters l ++ enq = res ++ waiters l'.
Proof.
  destruct l as [ws [|]], o as [w|]; simpl;
    try destruct ws as [|w' ws]; simpl; by rewrite ?app_nil_r.
Qed.

Lemma calls_queue os : ∀ l,
  let '(l', enq, res) := calls os l in
  waiters l ++ enq = res ++ waiters l'.
Proof.
  induction os as [|o os IH]; intros l; simpl.
  - by rewrite app_nil_r.
  - pose proof (call_queue o l) as H1.
    destruct (call o l) as [[l1 enq1] res1].
    pose proof (IH l1) as H2.
    destruct (calls os l1) as [[l2 enq2] res2].
    rewrite app_assoc, H1, <- !app_assoc. by f_equal.
Qed.

(** Caller 1 takes the lock, callers 2 and 3 queue up, and two releases
    resume 2 and then 3. *)
Example three_callers_two_releases :
  calls [Acquire 1; Acquire 2; Acquire 3; Release; Release] new
  = (mk [] true, [2; 3], [2; 3]).
Proof. reflexivity. Qed.

(** C3. [acquire] on an unlocked lock sets [mLocked] and is granted on
    the spot; on a locked lock it appends the caller to the tail of
    [waiters] and stays pending.  [release] on a locked lock with a
    queue resumes its head and nothing else.  Over any sequence of
    calls made on a fresh lock, the callers resumed so far followed by
    the callers still waiting are exactly the callers enqueued, in the
    order they were enqueued: waiters are served first in, first out. *)
Theorem acquire_release_fifo :
  (∀ ws w, acquire w (mk ws false) = (Normal Granted, mk ws true, [])) ∧
  (∀ ws w, acquire w (mk ws true) = (Normal Suspended, mk (ws ++ [w]) true, [])) ∧
  (∀ w ws, release (mk (w :: ws) true) = (Normal tt, mk ws true, [w])) ∧
  (∀ os, let '(l', enq, res) := calls os new in enq = res ++ waiters l').
Proof.
  split_and!; [done..|].
  intros os. apply (calls_queue os new).
Qed.

(** C4. [release] on a locked lock with an empty queue leaves it
    unlocked.  With a queue [w :: ws] it resumes [w], the lock ends as
    [ws] and locked, and every value the object takes while [release]
    runs is locked.  The last of these values is the one [release]
    leaves. *)
Theorem release_keeps_locked_on_handoff :
  release (mk [] true) = (Normal tt, mk [] false, []) ∧
  (∀ w ws,
     release (mk (w :: ws) true) = (Normal tt, mk ws true, [w]) ∧
     Forall (λ l, mLocked l = true) (release_states (mk (w :: ws) true))) ∧
  (∀ l, last (release_states l) = Some (release l).1.2).
Proof.
  split_and!.
  - done.
  - intros w ws. split; [done|]. simpl. by repeat constructor.
  - intros [[|w ws] [|]]; done.
Qed.

End LockFacts.

(** * Properties of [LockManager] *)

Module LockManagerFacts.
Import LockManager LockManagerUse.

Lemma acquire_eq key w (m : t) :
  acquire key w m =
  match m !! key with
  | None =>
      if inherited key
      then (Throw (TypeError "this.locks[key].method is not a function"), m, [])
      else (Normal Lock.Granted, <[key := Lock.mk [] true]> m, [])
  | Some l =>
      if Lock.mLocked l
      then (Normal Lock.Suspended,
            <[key := Lock.mk (Lock.waiters l ++ [w]) true]> m, [])
      else (Normal Lock.Granted, <[key := Lock.mk (Lock.waiters l) true]> m, [])
  end.
Proof.
  unfold acquire, no_lock, on_lock, Lock.acquire. munfold.
  destruct (m !! key) as [[ws b]|] eqn:Hk.
  - rewrite bool_decide_eq_false_2 by done. simpl. rewrite Hk.
    by destruct b.
  - rewrite bool_decide_eq_true_2 by done.
    destruct (inherited key) eqn:Hi; simpl.
    + by rewrite Hk.
    + rewrite lookup_insert_eq. simpl. by rewrite insert_insert_eq.
Qed.

Lemma release_eq key (m : t) :
  release key m =
  match m !! key with
  | None =>
      if inherited key
      then (Throw (TypeError "this.locks[key].method is not a function"), m, [])
      else (Throw (VError ("There is no lock for key " +:+ key)), m, [])
  | Some l =>
      if Lock.mLocked l then
        match Lock.waiters l with
        | w :: ws => (Normal tt, <[key := Lock.mk ws true]> m, [w])
        | [] => (Normal tt, delete key m, [])
        end
      else (Throw (VError "Tried to release a Lock that was not locked"), m, [])
  end.
Proof.
  unfold release, no_lock, on_lock, Lock.release, Lock.locked. munfold.
  destruct (m !! key) as [[ws b]|] eqn:Hk.
  - rewrite bool_decide_eq_false_2 by done. simpl. rewrite Hk.
    destruct b; simpl.
    + destruct ws as [|w ws]; simpl; rewrite lookup_insert_eq; simpl.
      * by rewrite !delete_insert_eq.
      * by rewrite insert_insert_eq.
    + by rewrite insert_id.
  - rewrite bool_decide_eq_true_2 by done.
    destruct (inherited key) eqn:Hi; simpl; [|done].
    by rewrite Hk.
Qed.

Lemma all_locked_new : all_locked new.
Proof. intros key l. unfold new. by rewrite lookup_empty. Qed.

Lemma all_locked_call o m : all_locked m → all_locked (call o m).
Proof.
  intros Hm k l. destruct o as [key w|key]; simpl.
  - rewrite acquire_eq.
    destruct (m !! key) as [l0|] eqn:Hk;
      [destruct (Lock.mLocked l0)|destruct (inherited key)];
      simpl; try (by apply Hm); rewrite lookup_insert; case_decide; naive_solver.
  - rewrite release_eq.
    destruct (m !! key) as [l0|] eqn:Hk; [|destruct (inherited key); by apply Hm].
    destruct (Lock.mLocked l0); [|by apply Hm].
    destruct (Lock.waiters l0); simpl.
    + rewrite lookup_delete. case_decide; naive_solver.
    + rewrite lookup_insert. case_decide; naive_solver.
Qed.

Lemma all_locked_calls os : ∀ m, all_locked m → all_locked (calls os m).
Proof.
  induction os as [|o os IH]; intros m Hm; simpl; [done|].
  by apply IH, all_locked_call.
Qed.

Lemma call_other_key o (m : t) key :
  key_of o ≠ key → call o m !! key = m !! key.
Proof.
  intros Hne. destruct o as [k w|k]; simpl in *.
  - rewrite acquire_eq.
    destruct (m !! k) as [l|]; [destruct (Lock.mLocked l)|destruct (inherited k)];
      simpl; try done; by rewrite lookup_insert_ne.
  - rewrite release_eq.
    destruct (m !! k) as [l|]; [|by destruct (inherited k)].
    destruct (Lock.mLocked l); [|done].
    destruct (Lock.waiters l); simpl;
      [by rewrite lookup_delete_ne|by rewrite lookup_insert_ne].
Qed.

(** What one call does to the entry of [key], against what it returned
    to its caller and whom it resumed. *)
Lemma call_history o (m : t) key :
  all_locked m →
  present key (call o m)
  = (present key m + if decide (key_of o = key) then handed o m else 0)%Z ∧
  queue key m ++ (if decide (key_of o = key) then enqueued_by o m else [])
  = (if decide (key_of o = key) then resumed_by o m else []) ++ queue key (call o m).
Proof.
  intros Hm. unfold present, queue. destruct (decide (key_of o = key)) as [<-|Hne].
  - destruct o as [k w|k]; simpl.
    + rewrite acquire_eq. destruct (m !! k) as [l|] eqn:Hk.
      * rewrite (Hm _ _ Hk). simpl. rewrite lookup_insert_eq. simpl. split; [lia|done].
      * destruct (inherited k); simpl.
        -- rewrite Hk. by split.
        -- rewrite lookup_insert_eq. by split.
    + rewrite release_eq. destruct (m !! k) as [l|] eqn:Hk.
      * rewrite (Hm _ _ Hk). destruct (Lock.waiters l) as [|w ws]; simpl.
        -- rewrite lookup_delete_eq. by split.
        -- rewrite lookup_insert_eq. simpl. split; [lia|by rewrite app_nil_r].
      * destruct (inherited k); simpl; rewrite Hk; by split.
  - rewrite (call_other_key o m key Hne). split; [lia|by rewrite app_nil_r].
Qed.

Lemma calls_history key os : ∀ m : t,
  all_locked m →
  present key (calls os m) = (present key m + holders key os m)%Z ∧
  queue key m ++ enqueued_on key os m
  = resumed_on key os m ++ queue key (calls os m).
Proof.
  induction os as [|o os IH]; intros m Hm; simpl.
  - split; [lia|by rewrite app_nil_r].
  - destruct (call_history o m key Hm) as [H1 H2].
    destruct (IH (call o m) (all_locked_call _ _ Hm)) as [H3 H4].
    split; [lia|].
    rewrite app_assoc, H2, <- !app_assoc. by f_equal.
Qed.

(** C5. In every state the manager reaches from [new] by calls of
    [acquire] and [release], a key is in the dictionary (an own
    property of [locks]) exactly when its lock is in use: when a caller
    holds it, having been given it by an [acquire] or a [release] and
    not being through its own [release] yet, or callers put to wait for
    it have not been resumed.  The lock in the dictionary is then
    locked, one caller holds it, and its queue is those callers, in
    order; for a key that is not in the dictionary nobody holds and
    nobody waits.  When [release(key)] leaves the lock of [key]
    unlocked with no waiters, the key is no longer in the
    dictionary. *)
Theorem key_present_iff_in_use os key :
  let m := calls os new in
  (is_Some (m !! key) ↔
     holders key os new = 1%Z ∨ waiting key os new ≠ []) ∧
  (∀ l, m !! key = Some l →
        Lock.mLocked l = true ∧ holders key os new = 1%Z ∧
        Lock.waiters l = waiting key os new) ∧
  (m !! key = None → holders key os new = 0%Z ∧ waiting key os new = []) ∧
  (∀ l l' out,
     m !! key = Some l →
     Lock.release l = (Normal tt, l', out) →
     Lock.mLocked l' = false → Lock.waiters l' = [] →
     (release key m).1.1 = Normal tt ∧ (release key m).1.2 !! key = None).
Proof.
  intros m.
  assert (Hinv : all_locked m) by apply all_locked_calls, all_locked_new.
  destruct (calls_history key os new all_locked_new) as [Hp Hq].
  fold m in Hp, Hq. unfold present, queue in Hp, Hq.
  change (new !! key) with (@None Lock.t) in Hp, Hq. simpl in Hp, Hq.
  assert (waiting key os new = match m !! key with
                             | Some l => Lock.waiters l
                             | None => []
                             end) as Hw.
  { unfold waiting. rewrite Hq. by rewrite drop_app_length. }
  assert (∀ l, m !! key = Some l →
               Lock.mLocked l = true ∧ holders key os new = 1%Z ∧
               Lock.waiters l = waiting key os new) as Hsome.
  { intros l Hl. rewrite Hw, Hl. rewrite Hl in Hp.
    split_and!; [by eapply Hinv|lia|done]. }
  assert (m !! key = None → holders key os new = 0%Z ∧ waiting key os new = [])
    as Hnone.
  { intros Hl. rewrite Hw, Hl. rewrite Hl in Hp. split; [lia|done]. }
  split_and!; [|done|done|].
  - split.
    + intros [l Hl]. left. by destruct (Hsome l Hl) as (_ & ? & _).
    + destruct (m !! key) as [l|]; [by eauto|].
      destruct (Hnone eq_refl) as [H0 Hw0]. rewrite H0, Hw0.
      intros [?|?]; done.
  - intros [ws b] l' out Hl. rewrite release_eq, Hl. simpl.
    destruct b; [|done]. destruct ws as [|w ws]; simpl.
    + intros _ _ _. split; [done|]. apply lookup_delete_eq.
    + by intros [= <- <-] [=].
Qed.

(** C8. [Lock.release] on an unlocked lock throws the [VError] of
    [lock.ts] and leaves the lock as it was.  [LockManager.release(key)]
    with no lock under [key] leaves the whole dictionary, hence the lock
    of every other key, as it was; it throws the [VError] of its guard
    unless [key] is a property name of [Object.prototype]: the guard
    [!this.locks[key]] then finds the inherited value, and the call
    throws the [TypeError] of [this.locks[key].release()] instead, as
    for ["toString"] on a new manager. *)
Theorem release_without_acquire_throws :
  (∀ ws,
     Lock.release (Lock.mk ws false)
     = (Throw (VError "Tried to release a Lock that was not locked"),
        Lock.mk ws false, [])) ∧
  (∀ key (m : t),
     m !! key = None →
     release key m
     = (Throw (if inherited key
               then TypeError "this.locks[key].method is not a function"
               else VError ("There is no lock for key " +:+ key)), m, [])) ∧
  inherited "toString" = true ∧
  release "toString" new
  = (Throw (TypeError "this.locks[key].method is not a function"), new, []).
Proof.
  split_and!; [done| |done|done].
  intros key m Hk. rewrite release_eq, Hk. by destruct (inherited key).
Qed.

Lemma held_release key (m : t) :
  held key m → ∃ m' out, release key m = (Normal tt, m', out).
Proof.
  intros (l & Hl & Hlocked). rewrite release_eq, Hl, Hlocked.
  destruct (Lock.waiters l); eauto.
Qed.

Lemma acquire_output key w (m : t) : (acquire key w m).2 = [].
Proof.
  rewrite acquire_eq.
  destruct (m !! key) as [l|]; [destruct (Lock.mLocked l)|destruct (inherited key)];
    done.
Qed.

(** An [acquire] that does not throw leaves the lock of its key in the
    dictionary, locked. *)
Lemma acquire_held key w (m : t) g m1 out :
  acquire key w m = (Normal g, m1, out) → held key m1.
Proof.
  rewrite acquire_eq. unfold held.
  destruct (m !! key) as [l|]; [destruct (Lock.mLocked l)|destruct (inherited key)];
    intros [= <- <- <-]; rewrite lookup_insert_eq; eauto.
Qed.

(** C6, amended. [withLock(key, func)] whose [acquire] is granted
    runs [func] on the dictionary in which the lock is held and then,
    whether [func] returned a value or threw, runs [release(key)] on
    what [func] left; the call settles only after that, and the
    dictionary it leaves is the one [release(key)] leaves.  When
    [release(key)] completes normally the call settles as [func] did:
    with its value, or with its error; and [release(key)] completes
    normally whenever [func] leaves the lock of [key] held, which a
    [func] that does not release [key] itself does.  When
    [release(key)] throws, the call rejects with the error of
    [release(key)].  When [acquire] has to wait, the call is pending,
    and the same holds of the part that runs once the caller is
    resumed. *)
Theorem withLock_releases {T} key w (func : M t T) (m : t) :
  (∀ m1 r m2 out2,
     acquire key w m = (Normal Lock.Granted, m1, []) →
     func m1 = (r, m2, out2) →
     ∃ r' m3 out3,
       release key m2 = (r', m3, out3) ∧
       withLock key w func m
       = (Settled (match r' with Normal _ => r | Throw e => Throw e end),
          m3, out2 ++ out3) ∧
       (held key m2 → r' = Normal tt)) ∧
  (∀ m1,
     acquire key w m = (Normal Lock.Suspended, m1, []) →
     withLock key w func m = (Pending, m1, []) ∧
     ∀ m1' r m2 out2,
       func m1' = (r, m2, out2) →
       ∃ r' m3 out3,
         release key m2 = (r', m3, out3) ∧
         withLock_held key func m1'
         = (match r' with Normal _ => r | Throw e => Throw e end, m3, out2 ++ out3) ∧
         (held key m2 → r' = Normal tt)).
Proof.
  assert (∀ m1 r m2 out2,
            func m1 = (r, m2, out2) →
            ∃ r' m3 out3,
              release key m2 = (r', m3, out3) ∧
              withLock_held key func m1
              = (match r' with Normal _ => r | Throw e => Throw e end,
                 m3, out2 ++ out3) ∧
              (held key m2 → r' = Normal tt)) as Hheld.
  { intros m1 r m2 out2 Hf.
    destruct (release key m2) as [[r' m3] out3] eqn:Hrel.
    exists r', m3, out3. split_and!; [done| |].
    - unfold withLock_held, try_finally. rewrite Hf, Hrel. by destruct r' as [[]|].
    - intros Hh. destruct (held_release _ _ Hh) as (? & ? & Hrel'). congruence. }
  split.
  - intros m1 r m2 out2 Hacq Hf.
    destruct (Hheld _ _ _ _ Hf) as (r' & m3 & out3 & Hrel & Hw & Hn).
    exists r', m3, out3. split_and!; [done| |done].
    unfold withLock. by rewrite Hacq, Hw.
  - intros m1 Hacq. split; [|done].
    unfold withLock. by rewrite Hacq.
Qed.

(** C6, as stated, fails: [withLock] does not always settle as [func]
    did.  A [func] that releases the key it runs under returns 7, the
    [release(key)] of the [finally] block then throws, and the call
    rejects with that error. *)
Lemma withLock_rejects_though_func_returns :
  acquire "a" 0 new = (Normal Lock.Granted, {[ "a" := Lock.mk [] true ]}, []) ∧
  (release "a";; mret 7) ({[ "a" := Lock.mk [] true ]} : t) = (Normal 7, new, []) ∧
  withLock "a" 0 (release "a";; mret 7) new
  = (Settled (Throw (VError "There is no lock for key a")), new, []).
Proof. split_and!; vm_compute; reflexivity. Qed.

(** The manager after one caller took ["a"] and a second one queued
    for it; the first [release] hands the lock over, the second leaves
    it unlocked and takes ["a"] out of the dictionary. *)
Lemma key_present_iff_in_use_witness :
  let os := [Acquire "a" 0; Acquire "a" 1; Release "a"] in
  let m := calls os new in
  m !! "a" = Some (Lock.mk [] true) ∧
  holders "a" os new = 1%Z ∧ waiting "a" os new = [] ∧
  Lock.release (Lock.mk [] true) = (Normal tt, Lock.mk [] false, []) ∧
  (release "a" m).1.1 = Normal tt ∧ (release "a" m).1.2 !! "a" = None.
Proof.
  intros os m.
  assert (m !! "a" = Some (Lock.mk [] true)) as Hm by (vm_compute; reflexivity).
  destruct (key_present_iff_in_use os "a") as (_ & Hsome & _ & Hrel).
  destruct (Hsome _ Hm) as (_ & Hh & Hw).
  split_and!; [exact Hm|exact Hh|by rewrite <- Hw|reflexivity|..];
    apply (Hrel (Lock.mk [] true) (Lock.mk [] false) [] Hm); reflexivity.
Defined.

(** [withLock] on a free key, around a [func] that returns 7 and one
    that throws. *)
Lemma withLock_releases_witness :
  withLock "a" 0 (λ m, (Normal 7, m, [])) new = (Settled (Normal 7), new, []) ∧
  withLock "a" 0 (λ m, (Throw (ExternalError "boom") : completion nat, m, [])) new
  = (Settled (Throw (ExternalError "boom")), new, []).
Proof.
  split.
  - destruct (proj1 (withLock_releases (T := nat) "a" 0 (λ m, (Normal 7, m, [])) new)
                _ _ _ _ eq_refl eq_refl) as (r' & m3 & out3 & Hrel & Hw & Hn).
    rewrite Hw. vm_compute in Hrel. by injection Hrel as <- <- <-.
  - destruct (proj1 (withLock_releases (T := nat) "a" 0
                       (λ m, (Throw (ExternalError "boom"), m, [])) new)
                _ _ _ _ eq_refl eq_refl) as (r' & m3 & out3 & Hrel & Hw & Hn).
    rewrite Hw. vm_compute in Hrel. by injection Hrel as <- <- <-.
Defined.

End LockManagerFacts.

(** * Properties of the nonce source, one call at a time *)

(** * Properties of [number] addition *)

Module NumberFacts.
Import Number.
Local Open Scope Z_scope.

Lemma round_exact m : Z.abs m ≤ 2 ^ 53 → round m = m.
Proof.
  intros Hm. destruct (decide (Z.abs m = 2 ^ 53)) as [Heq|Hne].
  - destruct (Z.abs_eq_or_opp m) as [H|H]; rewrite H in Heq.
    + subst m. by vm_compute.
    + replace m with (- 2 ^ 53) by lia. by vm_compute.
  - assert (Z.log2 (Z.abs m) - 52 ≤ 0) as Hlog.
    { destruct (decide (Z.abs m = 0)) as [->|Hnz]; [by vm_compute|].
      assert (Z.log2 (Z.abs m) < 53); [|lia].
      apply Z.log2_lt_pow2; lia. }
    unfold round, ulp. rewrite Z.max_l by lia. change (2 ^ 0) with 1.
    rewrite Z.div_1_r, Z.mod_1_r. simpl. lia.
Qed.

Lemma succ_exact n : - 2 ^ 53 ≤ n < 2 ^ 53 → succ n = n + 1.
Proof. intros Hn. apply round_exact. lia. Qed.

Lemma after_exact d : ∀ n,
  - 2 ^ 53 ≤ n → n + Z.of_nat d ≤ 2 ^ 53 → after d n = n + Z.of_nat d.
Proof.
  induction d as [|d IH]; intros n Hlo Hhi.
  - simpl. lia.
  - change (after (S d) n) with (succ (after d n)).
    rewrite IH by lia. rewrite succ_exact by lia. lia.
Qed.

Lemma succ_2_53 : succ (2 ^ 53) = 2 ^ 53.
Proof. by vm_compute. Qed.

(** Above 2^53 the [number]s are two apart, above 2^54 four apart: a
    sum half way between two of them goes to the one with the even
    significand. *)
Example succ_above_2_53 :
  succ 41 = 42 ∧
  succ 9007199254740994 = 9007199254740996 ∧
  succ 9007199254740996 = 9007199254740996 ∧
  succ 18014398509481984 = 18014398509481984 ∧
  succ (-9007199254740994) = -9007199254740992 ∧
  succ (-9007199254740992) = -9007199254740991.
Proof. by vm_compute. Qed.

End NumberFacts.

Module NonceFacts.
Import MultiSigReplayProtection.

Lemma getNonce_cached chain l n log :
  getNonce chain (mk l (Some n) log)
  = (Normal (Number.succ n), mk l (Some (Number.succ n)) log, []).
Proof. reflexivity. Qed.

Lemma getNonce_deployed chain l log c v :
  getCode chain = Normal c → c ≠ "0x" → safeNonce chain = Normal v →
  getNonce chain (mk l None log)
  = (Normal v, mk l (Some v) (log ++ [GetCode; SafeNonce]), []).
Proof.
  intros Hc Hne Hv. unfold getNonce, await, set_nonce. munfold. simpl.
  rewrite Hc, Hv. rewrite bool_decide_eq_true_2 by done. simpl.
  by rewrite <- app_assoc.
Qed.

Lemma getNonce_not_deployed chain l log :
  getCode chain = Normal "0x" →
  getNonce chain (mk l None log) = (Normal 0%Z, mk l (Some 0%Z) (log ++ [GetCode]), []).
Proof.
  intros Hc. unfold getNonce, await, set_nonce. munfold. simpl. by rewrite Hc.
Qed.

Lemma getNonce_code_fails chain l log e :
  getCode chain = Throw e →
  getNonce chain (mk l None log) = (Throw e, mk l None (log ++ [GetCode]), []).
Proof.
  intros Hc. unfold getNonce, await, set_nonce. munfold. simpl. by rewrite Hc.
Qed.

Lemma getNonce_safe_fails chain l log c e :
  getCode chain = Normal c → c ≠ "0x" → safeNonce chain = Throw e →
  getNonce chain (mk l None log)
  = (Throw e, mk l None (log ++ [GetCode; SafeNonce]), []).
Proof.
  intros Hc Hne Hv. unfold getNonce, await, set_nonce. munfold. simpl.
  rewrite Hc, Hv. rewrite bool_decide_eq_true_2 by done. simpl.
  by rewrite <- app_assoc.
Qed.

(** [getNonce] does not touch the lock and resumes nobody. *)
Lemma getNonce_frame chain l l2 n log r s' out :
  getNonce chain (mk l n log) = (r, s', out) →
  lock s' = l ∧ out = [] ∧
  getNonce chain (mk l2 n log) = (r, mk l2 (nonce s') (asked s'), []).
Proof.
  unfold getNonce, await, set_nonce. munfold. simpl.
  destruct n; simpl; [by intros [= <- <- <-]|].
  destruct (getCode chain) as [c|e]; simpl; [|by intros [= <- <- <-]].
  case_bool_decide; simpl; [|by intros [= <- <- <-]].
  destruct (safeNonce chain); simpl; by intros [= <- <- <-].
Qed.

(** With the lock free, the public method is [getNonce] between an
    [acquire] and a [release] that leave the lock as it was. *)
Lemma getEncodedReplayProtection_free encode chain w n log r s' out :
  getNonce chain (mk Lock.new n log) = (r, s', out) →
  getEncodedReplayProtection encode chain w (mk Lock.new n log)
  = (Settled (match r with Normal x => encode x | Throw e => Throw e end),
     s', []).
Proof.
  intros Hg.
  destruct (getNonce_frame _ _ (Lock.mk [] true) _ _ _ _ _ Hg) as (Hl & -> & Hg').
  unfold getEncodedReplayProtection, getEncodedReplayProtection_held, on_lock,
    external.
  munfold. simpl. rewrite Hg'. destruct s' as [l' n' log']. simpl in *. subst l'.
  by destruct r.
Qed.

(** C2, amended. The first successful read, with [nonce] unset,
    returns the nonce the safe reports when the provider reports code
    at the forwarder address (a code string other than ["0x"]), and 0
    when the provider reports ["0x"]; a read with [nonce] set to [n]
    returns [n + 1] as long as [n] is below 2^53 (and not below -2^53),
    where [+ 1] is exact on a [number].  Each time, also outside that
    range, the value returned is the value [nonce] is left at. *)
Theorem getNonce_first_then_successor chain l log :
  (∀ c v,
     getCode chain = Normal c → c ≠ "0x" → safeNonce chain = Normal v →
     getNonce chain (mk l None log)
     = (Normal v, mk l (Some v) (log ++ [GetCode; SafeNonce]), [])) ∧
  (getCode chain = Normal "0x" →
     getNonce chain (mk l None log)
     = (Normal 0%Z, mk l (Some 0%Z) (log ++ [GetCode]), [])) ∧
  (∀ n,
     (- 2 ^ 53 ≤ n < 2 ^ 53)%Z →
     getNonce chain (mk l (Some n) log)
     = (Normal (n + 1)%Z, mk l (Some (n + 1)%Z) log, [])) ∧
  (∀ n,
     getNonce chain (mk l (Some n) log)
     = (Normal (Number.succ n), mk l (Some (Number.succ n)) log, [])).
Proof.
  split_and!.
  - intros c v. apply getNonce_deployed.
  - apply getNonce_not_deployed.
  - intros n Hn. rewrite getNonce_cached. by rewrite NumberFacts.succ_exact.
  - intros n. apply getNonce_cached.
Qed.

(** C2, as stated, fails: a later read does not always return the
    cached value plus one.  With a safe that reports 2^53 - 1, the
    largest integer [toNumber()] gives, three reads in sequence return
    2^53 - 1, 2^53 and 2^53 again: [this.nonce + 1] is 2^53 + 1 rounded
    to a [number]. *)
Lemma successor_stops_at_2_53 :
  let world := safe 9007199254740991 in
  let s1 := mk Lock.new (Some 9007199254740991%Z) [GetCode; SafeNonce] in
  let s2 := mk Lock.new (Some 9007199254740992%Z) [GetCode; SafeNonce] in
  getNonce world new = (Normal 9007199254740991%Z, s1, []) ∧
  getNonce world s1 = (Normal 9007199254740992%Z, s2, []) ∧
  getNonce world s2 = (Normal 9007199254740992%Z, s2, []) ∧
  (9007199254740992 ≠ 9007199254740992 + 1)%Z.
Proof. split_and!; [by vm_compute..|lia]. Qed.

(** C9, as stated, fails: with a deployed safe reporting 41, two reads
    in sequence return 41 and then 42, which is not 42 and then 43. *)
Lemma deployed_41_not_42_then_43 :
  (getNonce safe41 new).1.1 = Normal 41%Z ∧
  (getNonce safe41 (getNonce safe41 new).1.2).1.1 = Normal 42%Z ∧
  ((getNonce safe41 new).1.1, (getNonce safe41 (getNonce safe41 new).1.2).1.1)
  ≠ (Normal 42%Z, Normal 43%Z).
Proof. split_and!; [reflexivity..|]. intros [=]. Qed.

(** C9, amended. With a deployed safe reporting 41, two calls in
    sequence on a fresh instance complete as the coder does on 41 and
    then on 42 (with their encodings, when it encodes them), and two
    reads in sequence return 41 and then 42. *)
Theorem deployed_41_then_42 encode chain c w1 w2 :
  getCode chain = Normal c → c ≠ "0x" → safeNonce chain = Normal 41%Z →
  ∃ s1 s2,
    getNonce chain new = (Normal 41%Z, s1, []) ∧
    getNonce chain s1 = (Normal 42%Z, s2, []) ∧
    getEncodedReplayProtection encode chain w1 new
    = (Settled (encode 41%Z), s1, []) ∧
    getEncodedReplayProtection encode chain w2 s1
    = (Settled (encode 42%Z), s2, []).
Proof.
  intros Hc Hne Hv.
  pose proof (getNonce_deployed chain Lock.new [] c 41 Hc Hne Hv) as H1.
  pose proof (getNonce_cached chain Lock.new 41 [GetCode; SafeNonce]) as H2.
  change (Number.succ 41) with 42%Z in H2.
  eexists _, _. split_and!.
  - exact H1.
  - exact H2.
  - by rewrite (getEncodedReplayProtection_free _ _ _ _ _ _ _ _ H1).
  - by rewrite (getEncodedReplayProtection_free _ _ _ _ _ _ _ _ H2).
Qed.

(** C7. When the first external query fails with [e] while [nonce]
    is unset (the provider rejects [getCode], or it reports code and
    the safe rejects [nonce()]), [getNonce] and the public method
    reject with [e] itself, [nonce] stays unset and the lock is left
    free.  A later call that the outside world answers goes through
    the initial resolution again: it asks the provider (and the safe,
    when code is reported), reads the reported value or 0, not a
    successor, and completes as the coder does on it. *)
Theorem first_query_failure_leaves_nonce_unset encode chain e w log :
  (getCode chain = Throw e ∨
   ∃ c, getCode chain = Normal c ∧ c ≠ "0x" ∧ safeNonce chain = Throw e) →
  ∃ log',
    getNonce chain (mk Lock.new None log) = (Throw e, mk Lock.new None log', []) ∧
    getEncodedReplayProtection encode chain w (mk Lock.new None log)
    = (Settled (Throw e), mk Lock.new None log', []) ∧
    ∀ chain' w' c' v',
      getCode chain' = Normal c' →
      (c' ≠ "0x" → safeNonce chain' = Normal v') →
      let deployed := bool_decide (c' ≠ "0x") in
      let first := if deployed then v' else 0%Z in
      getEncodedReplayProtection encode chain' w' (mk Lock.new None log')
      = (Settled (encode first),
         mk Lock.new (Some first)
            (log' ++ GetCode :: if deployed then [SafeNonce] else []),
         []).
Proof.
  intros Hfail.
  assert (∃ log', getNonce chain (mk Lock.new None log)
                  = (Throw e, mk Lock.new None log', [])) as [log' Hg].
  { destruct Hfail as [Hc|(c & Hc & Hne & Hv)].
    - eexists. by apply getNonce_code_fails.
    - eexists. by eapply getNonce_safe_fails. }
  exists log'. split_and!; [done| |].
  - by rewrite (getEncodedReplayProtection_free _ _ _ _ _ _ _ _ Hg).
  - intros chain' w' c' v' Hc' Hv' deployed first. subst deployed first.
    case_bool_decide as Hd.
    + pose proof (getNonce_deployed chain' Lock.new log' c' v' Hc' Hd (Hv' Hd)) as H1.
      by rewrite (getEncodedReplayProtection_free _ _ _ _ _ _ _ _ H1).
    + assert (c' = "0x") as -> by (by destruct (decide (c' = "0x"))).
      pose proof (getNonce_not_deployed chain' Lock.new log' Hc') as H1.
      by rewrite (getEncodedReplayProtection_free _ _ _ _ _ _ _ _ H1).
Qed.

(** C10. When the provider reports the code string ["0x0"], the first
    [getNonce] takes the deployed branch: it asks the safe and returns
    the nonce the safe reports; [accessNonceStore] takes ["0x0"] for
    empty code: it asks no contract and completes as
    [new BigNumber("0")] does.  With the constructor of
    [@ethersproject/bignumber], which throws when called this way, it
    rejects instead of returning 0. *)
Theorem code_0x0_read_differently chain guard v index l log :
  getCode chain = Normal "0x0" → safeNonce chain = Normal v →
  getNonce chain (mk l None log)
  = (Normal v, mk l (Some v) (log ++ [GetCode; SafeNonce]), []) ∧
  accessNonceStore chain guard index (mk l None log)
  = (newBigNumber guard, mk l None (log ++ [GetCode]), []) ∧
  accessNonceStore chain ethers index (mk l None log)
  = (Throw (ExternalError "cannot call constructor directly; use BigNumber.from"),
     mk l None (log ++ [GetCode]), []).
Proof.
  intros Hc Hv. split_and!.
  - by apply (getNonce_deployed chain l log "0x0" v).
  - unfold accessNonceStore, await, external. munfold. simpl. by rewrite Hc.
  - unfold accessNonceStore, await, external. munfold. simpl. by rewrite Hc.
Qed.

(** A provider that rejects [getCode], and worlds that answer. *)
Lemma getNonce_first_then_successor_witness :
  getNonce safe41 new = (Normal 41%Z, mk Lock.new (Some 41%Z) [GetCode; SafeNonce], []) ∧
  getNonce (mkChain (Normal "0x") (Normal 41%Z) (Normal "0x01") (λ _, Normal 0%Z)) new
  = (Normal 0%Z, mk Lock.new (Some 0%Z) [GetCode], []) ∧
  getNonce safe41 (mk Lock.new (Some 41%Z) [GetCode; SafeNonce])
  = (Normal 42%Z, mk Lock.new (Some 42%Z) [GetCode; SafeNonce], []).
Proof.
  split_and!.
  - apply (proj1 (getNonce_first_then_successor safe41 Lock.new [])
             "0x6080604052" 41%Z); done.
  - apply (proj1 (proj2 (getNonce_first_then_successor
                           (mkChain (Normal "0x") (Normal 41%Z) (Normal "0x01")
                                    (λ _, Normal 0%Z)) Lock.new []))).
    reflexivity.
  - apply (proj1 (proj2 (proj2 (getNonce_first_then_successor
                                  safe41 Lock.new [GetCode; SafeNonce]))) 41%Z).
    lia.
Defined.

Lemma deployed_41_then_42_witness :
  getCode safe41 = Normal "0x6080604052" ∧ "0x6080604052" ≠ "0x" ∧
  safeNonce safe41 = Normal 41%Z ∧
  ∃ s1 s2,
    getNonce safe41 new = (Normal 41%Z, s1, []) ∧
    getNonce safe41 s1 = (Normal 42%Z, s2, []) ∧
    getEncodedReplayProtection decimal safe41 0 new
    = (Settled (decimal 41%Z), s1, []) ∧
    getEncodedReplayProtection decimal safe41 1 s1
    = (Settled (decimal 42%Z), s2, []).
Proof.
  split_and!; [reflexivity|done|reflexivity|].
  apply (deployed_41_then_42 decimal safe41 "0x6080604052" 0 1); done.
Defined.

Lemma first_query_failure_leaves_nonce_unset_witness :
  let down := mkChain (Throw (ExternalError "timeout")) (Normal 41%Z) (Normal "0x01")
                      (λ _, Normal 0%Z) in
  getCode down = Throw (ExternalError "timeout") ∧
  ∃ log',
    getNonce down (mk Lock.new None [])
    = (Throw (ExternalError "timeout"), mk Lock.new None log', []) ∧
    getEncodedReplayProtection decimal down 0 (mk Lock.new None [])
    = (Settled (Throw (ExternalError "timeout")), mk Lock.new None log', []) ∧
    ∀ chain' w' c' v',
      getCode chain' = Normal c' →
      (c' ≠ "0x" → safeNonce chain' = Normal v') →
      let deployed := bool_decide (c' ≠ "0x") in
      let first := if deployed then v' else 0%Z in
      getEncodedReplayProtection decimal chain' w' (mk Lock.new None log')
      = (Settled (decimal first),
         mk Lock.new (Some first)
            (log' ++ GetCode :: if deployed then [SafeNonce] else []),
         []).
Proof.
  intros down. split; [reflexivity|].
  apply (first_query_failure_leaves_nonce_unset decimal down (ExternalError "timeout") 0 []).
  left. reflexivity.
Defined.

Lemma code_0x0_read_differently_witness :
  let ganache := mkChain (Normal "0x0") (Normal 7%Z) (Normal "0x01") (λ _, Normal 3%Z) in
  getCode ganache = Normal "0x0" ∧ safeNonce ganache = Normal 7%Z ∧
  getNonce ganache new = (Normal 7%Z, mk Lock.new (Some 7%Z) [GetCode; SafeNonce], []) ∧
  accessNonceStore ganache ethers 0 new
  = (newBigNumber ethers, mk Lock.new None [GetCode], []) ∧
  accessNonceStore ganache ethers 0 new
  = (Throw (ExternalError "cannot call constructor directly; use BigNumber.from"),
     mk Lock.new None [GetCode], []).
Proof.
  intros ganache. split_and!; [reflexivity..| | |];
    apply (code_0x0_read_differently ganache ethers 7%Z 0%Z Lock.new []); reflexivity.
Defined.

End NonceFacts.

(** * Properties of concurrent calls *)

Module TasksFacts.
Import MultiSigReplayProtection Tasks.

Section Invariant.
Variable encode : Z → completion string.
Variables (K : nat) (c : string) (v : Z).

#[local] Abbreviation first_value := (Tasks.first_value c v).
#[local] Abbreviation resolution := (Tasks.resolution c).
#[local] Abbreviation cached := (Tasks.cached c v).
#[local] Abbreviation asked_after := (Tasks.asked_after c).
#[local] Abbreviation at_pc := (Tasks.at_pc c v).
#[local] Abbreviation inv := (Tasks.inv encode K c v).






Lemma lookup_snoc_inv {A} (l : list A) (x y : A) j :
  (l ++ [x]) !! j = Some y →
  l !! j = Some y ∨ (j = length l ∧ y = x).
Proof.
  intros H. destruct (decide (j < length l)) as [Hlt|Hge].
  - left. by rewrite lookup_app_l in H.
  - right. rewrite lookup_app_r in H by lia.
    destruct (j - length l) as [|n] eqn:Hj; simpl in H; [|done].
    split; [lia|congruence].
Qed.



Lemma callers_cons e sched : callers (e :: sched) = callers [e] ++ callers sched.
Proof. unfold callers. simpl. by destruct e. Qed.






(** *** Every run can be completed *)
Lemma remaining_insert ts : ∀ i p p',
  ts !! i = Some p →
  remaining (<[i := p']> ts) + rank p = remaining ts + rank p'.
Proof.
  induction ts as [|q ts IH]; intros [|i] p p' Hp; simplify_eq/=.
  - lia.
  - specialize (IH _ _ p' Hp). lia.
Qed.

Lemma remaining_zero ts :
  remaining ts = 0 → ∀ i p, ts !! i = Some p → ∃ r, p = Finished r.
Proof.
  induction ts as [|q ts IH]; intros Hz [|i] p Hp; simpl in *; try done.
  - injection Hp as ->. destruct p; simpl in Hz; try lia. eauto.
  - eapply IH; [lia|done].
Qed.

Lemma remaining_pos ts :
  0 < remaining ts → ∃ i p, ts !! i = Some p ∧ 0 < rank p.
Proof.
  induction ts as [|q ts IH]; simpl; [lia|]. intros Hpos.
  destruct (decide (0 < rank q)) as [Hq|Hq].
  - by exists 0, q.
  - destruct IH as (i & p & Hp & Hr); [lia|]. by exists (S i), p.
Qed.



End Invariant.

(** One call alone on a free lock, run event by event, is the call
    run in one piece. *)
Lemma solo_agrees encode chain s ts i :
  ts !! i = Some NotCalled →
  Lock.mLocked (lock s) = false →
  ∃ r s' out,
    getEncodedReplayProtection encode chain i s = (Settled r, s', out) ∧
    exec encode (solo chain s i) (mkSys s ts)
    = Some (mkSys s' (wake out (<[i := Finished r]> ts))).
Proof.
  intros Hp Hl.
  assert (i < length ts) as Hlt by (by eapply lookup_lt_Some).
  destruct s as [[ws b] n log]. simpl in Hl. subst b.
  unfold getEncodedReplayProtection, getEncodedReplayProtection_held, solo,
    getNonce, await, set_nonce, on_lock, Lock.acquire, Lock.release, finish.
  munfold. simpl. rewrite Hp. simpl.
  destruct n as [n|].
  - simpl. rewrite !list_lookup_insert_eq by (by rewrite ?length_insert).
    simpl. rewrite !list_lookup_insert_eq by (by rewrite ?length_insert).
    unfold finish, on_lock, Lock.release. munfold. simpl.
    destruct ws as [|w ws]; simpl; rewrite !list_insert_insert_eq; eauto.
  - simpl. rewrite !list_lookup_insert_eq by (by rewrite ?length_insert).
    simpl. rewrite !list_lookup_insert_eq by (by rewrite ?length_insert).
    destruct (getCode chain) as [code|e]; simpl.
    + case_bool_decide; simpl.
      * rewrite !list_lookup_insert_eq by (by rewrite ?length_insert).
        destruct (safeNonce chain) as [x|e]; simpl;
          rewrite !list_lookup_insert_eq by (by rewrite ?length_insert);
          unfold finish, on_lock, Lock.release; munfold; simpl;
          destruct ws as [|w ws]; simpl; rewrite !list_insert_insert_eq;
          rewrite <- ?app_assoc; eauto.
      * rewrite !list_lookup_insert_eq by (by rewrite ?length_insert).
        unfold finish, on_lock, Lock.release. munfold. simpl.
        destruct ws as [|w ws]; simpl; rewrite !list_insert_insert_eq; eauto.
    + rewrite !list_lookup_insert_eq by (by rewrite ?length_insert).
      unfold finish, on_lock, Lock.release. munfold. simpl.
      destruct ws as [|w ws]; simpl; rewrite !list_insert_insert_eq; eauto.
Qed.

(** A first read that fails while other callers wait: the failing call
    settles with the error it was given, [nonce] stays unset, the lock
    goes to the head of the queue, and that caller starts the initial
    resolution over by asking the provider. *)
Lemma failed_read_hands_over encode i e w ws log ts :
  ts !! w = Some Queued →
  (ts !! i = Some AwaitingCode →
   exec encode [CodeReply i (Throw e); Leave i; Enter w]
     (mkSys (mk (Lock.mk (w :: ws) true) None log) ts)
   = Some (mkSys (mk (Lock.mk ws true) None (log ++ [GetCode]))
                 (<[w := AwaitingCode]> (<[i := Finished (Throw e)]> ts)))) ∧
  (ts !! i = Some AwaitingSafeNonce →
   exec encode [NonceReply i (Throw e); Leave i; Enter w]
     (mkSys (mk (Lock.mk (w :: ws) true) None log) ts)
   = Some (mkSys (mk (Lock.mk ws true) None (log ++ [GetCode]))
                 (<[w := AwaitingCode]> (<[i := Finished (Throw e)]> ts)))).
Proof.
  intros Hw.
  assert (w < length ts) as Hwl by (by eapply lookup_lt_Some).
  split; intros Hi;
    (assert (i < length ts) as Hil by (by eapply lookup_lt_Some));
    (assert (i ≠ w) as Hne by (intros ->; congruence));
    simpl; rewrite Hi; simpl;
    rewrite list_lookup_insert_eq by done; simpl;
    unfold finish, on_lock, Lock.release; munfold; simpl;
    rewrite list_insert_insert_eq;
    rewrite list_lookup_insert_eq by (by rewrite length_insert); simpl;
    by rewrite list_insert_insert_eq.
Qed.

(** Calls that arrive while the first caller is inside [getNonce], with
    no code at the forwarder address: caller 1 gets 0, then caller 0
    gets 1 and caller 2 gets 2. *)
Example late_callers_are_served_in_call_order :
  exec decimal
    [Call 1; Enter 1; Call 0; CodeReply 1 (Normal "0x"); Call 2; Leave 1;
     Enter 0; Leave 0; Enter 2; Leave 2] (init 3)
  = Some (mkSys (mk Lock.new (Some 2%Z) [GetCode])
                [Finished (Normal "1"); Finished (Normal "0"); Finished (Normal "2")]).
Proof. vm_compute. reflexivity. Qed.

(** A queued caller cannot go on before the holder leaves. *)
Example queued_caller_waits :
  exec decimal [Call 0; Call 1; Enter 1] (init 2) = None.
Proof. vm_compute. reflexivity. Qed.




End TasksFacts.

(** * More properties of [Lock] and [LockManager] *)

Module LockUseFacts.
Import Lock LockUse.
Local Open Scope Z_scope.

Lemma handed_call o l :
  indicator (mLocked l) + handed o l = indicator (mLocked (call o l).1.1).
Proof.
  destruct l as [ws [|]], o as [w|]; simpl; try done.
  destruct ws as [|w' ws]; simpl; done.
Qed.

(** X1. Over any sequence of [acquire] and [release] calls on a fresh
    lock, the callers that were given the lock (granted on the spot or
    resumed) and have not released it number one when the lock ends
    locked and zero when it ends unlocked: two callers never hold the
    lock together. *)
Theorem one_holder_at_a_time os :
  holders os new = indicator (mLocked (calls os new).1.1).
Proof.
  change (holders os new) with (indicator (mLocked new) + holders os new).
  generalize new. induction os as [|o os IH]; intros l; simpl.
  - lia.
  - specialize (IH (call o l).1.1). pose proof (handed_call o l).
    destruct (call o l) as [[l1 enq1] res1]. simpl in *.
    destruct (calls os l1) as [[l2 enq2] res2]. simpl in *. lia.
Qed.

Lemma queue_only_when_locked_call o l :
  (mLocked l = true ∨ waiters l = []) →
  mLocked (call o l).1.1 = true ∨ waiters (call o l).1.1 = [].
Proof.
  destruct l as [ws [|]], o as [w|]; simpl; intros [?|?]; simplify_eq/=; auto;
    destruct ws; simpl; auto.
Qed.

(** X2. Over any sequence of calls on a fresh lock, callers wait only
    on a locked lock: the lock is locked or its queue is empty. *)
Theorem queue_only_when_locked os :
  mLocked (calls os new).1.1 = true ∨ waiters (calls os new).1.1 = [].
Proof.
  assert (mLocked new = true ∨ waiters new = []) as H by (by right).
  revert H. generalize new. induction os as [|o os IH]; intros l Hl; simpl.
  - done.
  - pose proof (queue_only_when_locked_call o l Hl) as H1.
    specialize (IH (call o l).1.1 H1).
    destruct (call o l) as [[l1 enq1] res1]. simpl in *.
    by destruct (calls os l1) as [[l2 enq2] res2].
Qed.

(** X3. A locked lock with the queue [ws] is unlocked by exactly
    [length ws + 1] calls of [release]: they resume [ws] in order and
    leave the queue empty, and after any smaller number of calls the
    lock is still locked. *)
Theorem releases_drain_the_queue ws :
  calls (replicate (S (length ws)) Release) (mk ws true) = (mk [] false, [], ws) ∧
  ∀ n, (n ≤ length ws)%nat →
       mLocked (calls (replicate n Release) (mk ws true)).1.1 = true.
Proof.
  split.
  - induction ws as [|w ws IH]; [done|].
    change (calls (replicate (S (length (w :: ws))) Release) (mk (w :: ws) true))
      with (let '(l2, enq2, res2) :=
              calls (replicate (S (length ws)) Release) (mk ws true) in
            (l2, @nil nat ++ enq2, [w] ++ res2)).
    by rewrite IH.
  - induction ws as [|w ws IH]; intros [|n] Hn; simpl in *; try done; try lia.
    specialize (IH n ltac:(lia)).
    by destruct (calls (replicate n Release) (mk ws true)) as [[l2 enq2] res2].
Qed.

End LockUseFacts.

Module LockManagerUseFacts.
Import LockManager LockManagerFacts LockManagerUse.

Lemma call_this_key_acquire key w (m : t) :
  inherited key = false →
  lock_of key (call (Acquire key w) m)
  = (Lock.call (Lock.Acquire w) (lock_of key m)).1.1 ∧
  resumed_by (Acquire key w) m = (Lock.call (Lock.Acquire w) (lock_of key m)).2.
Proof.
  intros Hi. unfold lock_of. simpl. rewrite acquire_eq, Hi.
  destruct (m !! key) as [[ws [|]]|]; simpl; by rewrite lookup_insert_eq.
Qed.

Lemma call_this_key_release key (m : t) :
  inherited key = false →
  lock_of key (call (Release key) m) = (Lock.call Lock.Release (lock_of key m)).1.1 ∧
  resumed_by (Release key) m = (Lock.call Lock.Release (lock_of key m)).2.
Proof.
  intros Hi. unfold lock_of. simpl. rewrite release_eq, Hi.
  destruct (m !! key) as [[ws [|]]|] eqn:Hk; simpl.
  - destruct ws as [|w ws]; simpl.
    + by rewrite lookup_delete_eq.
    + by rewrite lookup_insert_eq.
  - by rewrite Hk.
  - by rewrite Hk.
Qed.

(** X4. The manager is one independent lock per key, for every key
    that is not a property name of [Object.prototype]: over any
    sequence of calls, on any keys, the lock of [key] ends as a single
    [Lock] does under the calls made on [key] alone, and the callers
    resumed on [key] are the ones that [Lock] resumes, in the same
    order.  Calls on other keys change nothing for [key]. *)
Theorem manager_is_a_lock_per_key os : ∀ (m : t) key,
  inherited key = false →
  lock_of key (calls os m) = (Lock.calls (on_key key os) (lock_of key m)).1.1 ∧
  resumed_on key os m = (Lock.calls (on_key key os) (lock_of key m)).2.
Proof.
  induction os as [|o os IH]; intros m key Hi; [done|].
  cbn [calls resumed_on]. destruct (IH (call o m) key Hi) as [IH1 IH2].
  rewrite IH1, IH2. clear IH IH1 IH2.
  destruct (decide (key_of o = key)) as [<-|Hne].
  - assert (∃ lo, on_key (key_of o) (o :: os) = lo :: on_key (key_of o) os ∧
                  lock_of (key_of o) (call o m) = (Lock.call lo (lock_of (key_of o) m)).1.1 ∧
                  resumed_by o m = (Lock.call lo (lock_of (key_of o) m)).2)
      as (lo & -> & Hl & Hr).
    { destruct o as [k w|k]; simpl in *; unfold on_key; simpl;
        rewrite decide_True by done; eexists; (split; [done|]).
      - by apply call_this_key_acquire.
      - by apply call_this_key_release. }
    rewrite Hl, Hr. cbn [Lock.calls].
    destruct (Lock.call lo (lock_of (key_of o) m)) as [[l1 enq1] res1]. simpl.
    by destruct (Lock.calls (on_key (key_of o) os) l1) as [[l2 enq2] res2].
  - assert (on_key key (o :: os) = on_key key os) as ->.
    { destruct o as [k w|k]; simpl in *; unfold on_key; simpl;
        by rewrite decide_False. }
    unfold lock_of at 1 3. by rewrite call_other_key.
Qed.

Lemma manager_is_a_lock_per_key_witness :
  let os := [Acquire "a" 0; Acquire "b" 1; Acquire "a" 2; Release "b"; Release "a"] in
  inherited "a" = false ∧
  lock_of "a" (calls os new) = Lock.mk [] true ∧
  (Lock.calls [Lock.Acquire 0; Lock.Acquire 2; Lock.Release] Lock.new).1.1
  = Lock.mk [] true ∧
  lock_of "a" (calls os new) = (Lock.calls (on_key "a" os) (lock_of "a" new)).1.1 ∧
  resumed_on "a" os new = (Lock.calls (on_key "a" os) (lock_of "a" new)).2.
Proof.
  intros os.
  assert (inherited "a" = false) as Hi by reflexivity.
  split; [exact Hi|]. split; [by vm_compute|]. split; [reflexivity|].
  exact (manager_is_a_lock_per_key os new "a" Hi).
Defined.

(** X5. [withLock] on a key that is held does not run [func]: the call
    is pending and the caller stands at the tail of the queue of that
    key; nothing else changes. *)
Theorem withLock_waits_for_held_key {T} key w (func : M t T) (m : t) l :
  m !! key = Some l → Lock.mLocked l = true →
  withLock key w func m
  = (Pending, <[key := Lock.mk (Lock.waiters l ++ [w]) true]> m, []).
Proof.
  intros Hl Hlocked. unfold withLock. by rewrite acquire_eq, Hl, Hlocked.
Qed.

Lemma withLock_waits_for_held_key_witness :
  let m : t := {[ "a" := Lock.mk [1] true ]} in
  m !! "a" = Some (Lock.mk [1] true) ∧ Lock.mLocked (Lock.mk [1] true) = true ∧
  withLock "a" 2 (λ m', (Normal 7, m', [])) m
  = (Pending, <["a" := Lock.mk [1; 2] true]> m, []).
Proof.
  intros m. split; [reflexivity|]. split; [reflexivity|].
  apply (withLock_waits_for_held_key (T := nat) "a" 2 _ m (Lock.mk [1] true));
    reflexivity.
Defined.

(** X6. [withLock] on a free key that is not a property name of
    [Object.prototype] leaves no lock behind: when [func] leaves the
    lock of [key] as [acquire] made it, the call settles as [func] did,
    resumes nobody of its own, and the dictionary is what [func] left
    without [key]. *)
Theorem withLock_leaves_no_lock {T} key w (func : M t T) (m : t) r m2 out :
  inherited key = false →
  m !! key = None →
  func (<[key := Lock.mk [] true]> m) = (r, m2, out) →
  m2 !! key = Some (Lock.mk [] true) →
  withLock key w func m = (Settled r, delete key m2, out).
Proof.
  intros Hi Hfree Hf Hkey.
  unfold withLock, withLock_held, try_finally.
  rewrite acquire_eq, Hfree, Hi, Hf, release_eq, Hkey. simpl.
  by rewrite app_nil_r.
Qed.

Lemma withLock_leaves_no_lock_witness :
  inherited "a" = false ∧ (new : t) !! "a" = None ∧
  withLock "a" 0 (acquire "b" 1;; mret 7) new
  = (Settled (Normal 7), {[ "b" := Lock.mk [] true ]}, []).
Proof.
  split; [reflexivity|]. split; [reflexivity|].
  rewrite (withLock_leaves_no_lock (T := nat) "a" 0 (acquire "b" 1;; mret 7) new
             (Normal 7) (<["b" := Lock.mk [] true]> (<["a" := Lock.mk [] true]> new)) []);
    [by vm_compute|reflexivity|reflexivity|by vm_compute|reflexivity].
Defined.

Lemma call_no_inherited o (m : t) key :
  inherited key = true → m !! key = None → call o m !! key = None.
Proof.
  intros Hi Hm. destruct (decide (key_of o = key)) as [<-|Hne].
  - destruct o as [k w|k]; simpl in *.
    + by rewrite acquire_eq, Hm, Hi.
    + by rewrite release_eq, Hm, Hi.
  - by rewrite call_other_key.
Qed.

Lemma calls_no_inherited os : ∀ (m : t) key,
  inherited key = true → m !! key = None → calls os m !! key = None.
Proof.
  induction os as [|o os IH]; intros m key Hi Hm; simpl; [done|].
  apply IH; [done|]. by apply call_no_inherited.
Qed.

(** X21. A key that is a property name of [Object.prototype]
    ([toString], [constructor], ...) never gets a lock: in every state
    the manager reaches from [new], [acquire(key)] rejects and
    [release(key)] throws, both with the [TypeError] of a method call on
    the inherited value, [withLock(key, func)] rejects with it without
    running [func], and each leaves the dictionary as it was. *)
Theorem prototype_name_is_refused {T} key w (func : M t T) os :
  inherited key = true →
  let m := calls os new in
  let e := TypeError "this.locks[key].method is not a function" in
  m !! key = None ∧
  acquire key w m = (Throw e, m, []) ∧
  release key m = (Throw e, m, []) ∧
  withLock key w func m = (Settled (Throw e), m, []).
Proof.
  intros Hi m e.
  assert (m !! key = None) as Hm by (by apply calls_no_inherited).
  assert (acquire key w m = (Throw e, m, [])) as Ha
    by (by rewrite acquire_eq, Hm, Hi).
  assert (release key m = (Throw e, m, [])) as Hr
    by (by rewrite release_eq, Hm, Hi).
  split_and!; [done..|].
  unfold withLock. by rewrite Ha, Hr.
Qed.

Lemma prototype_name_is_refused_witness :
  let m := calls [Acquire "a" 0; Acquire "toString" 1] new in
  let e := TypeError "this.locks[key].method is not a function" in
  inherited "toString" = true ∧
  m = {[ "a" := Lock.mk [] true ]} ∧
  m !! "toString" = None ∧
  acquire "toString" 2 m = (Throw e, m, []) ∧
  release "toString" m = (Throw e, m, []) ∧
  withLock "toString" 2 (λ m', (Normal 7, m', [])) m = (Settled (Throw e), m, []).
Proof.
  intros m e.
  assert (inherited "toString" = true) as Hi by reflexivity.
  split; [exact Hi|]. split; [by vm_compute|].
  exact (prototype_name_is_refused (T := nat) "toString" 2 (λ m', (Normal 7, m', []))
           [Acquire "a" 0; Acquire "toString" 1] Hi).
Defined.

End LockManagerUseFacts.

(** * Properties of the big-integer helpers *)

Module BigIntFacts.
Import BigInt.
Local Open Scope Z_scope.

Lemma pow_nonneg_value a b : 0 ≤ b → pow a b = Value (a ^ b).
Proof. intros Hb. unfold pow. by rewrite (proj2 (Z.ltb_ge b 0)). Qed.

Lemma div_value a b : b ≠ 0 → div a b = Value (a ÷ b).
Proof. intros Hb. unfold div. by rewrite (proj2 (Z.eqb_neq b 0)). Qed.

Lemma lt_pow2 i : 0 ≤ i → i < 2 ^ i.
Proof. intros Hi. by apply Z.pow_gt_lin_r. Qed.

(** The first loop stops at an [i] with [n < 2 ^ 2 ^ i], before the
    fuel runs out when there is more of it than [log2 n + 1 - i]. *)
Lemma ilog2_up_spec fuel : ∀ n i,
  1 ≤ n → 0 ≤ i → i ≤ Z.log2 n + 1 →
  Z.log2 n + 2 - i ≤ Z.of_nat fuel →
  ∃ i', ilog2_up fuel n i = Value i' ∧ 0 ≤ i' ≤ Z.log2 n + 1 ∧ n < 2 ^ 2 ^ i'.
Proof.
  induction fuel as [|fuel IH]; intros n i Hn Hi Hle Hfuel; [lia|].
  simpl. rewrite pow_nonneg_value by done. simpl.
  rewrite pow_nonneg_value by (apply Z.pow_nonneg; lia). simpl.
  destruct (Z.geb_spec n (2 ^ 2 ^ i)) as [Hge|Hlt].
  - assert (2 ^ i ≤ Z.log2 n) as Hlog
      by (apply (Z.log2_le_pow2 n (2 ^ i)); [lia|done]).
    pose proof (lt_pow2 i Hi).
    apply IH; lia.
  - exists i. split_and!; [done|lia..].
Qed.

(** The second loop, entered at [i] with [t = 2 ^ e] and
    [2 ^ e ≤ n < 2 ^ (e + 2 ^ (i + 1))], ends with [e = log2 n]. *)
Lemma ilog2_down_spec fuel : ∀ n i e t,
  -1 ≤ i → 0 ≤ e → t = 2 ^ e →
  2 ^ e ≤ n < 2 ^ (e + 2 ^ (i + 1)) →
  i + 2 ≤ Z.of_nat fuel →
  ilog2_down fuel n i e t = Value (Z.log2 n).
Proof.
  induction fuel as [|fuel IH]; intros n i e t Hi He -> [Hlo Hhi] Hfuel; [lia|].
  simpl. destruct (Z.geb_spec i 0) as [Hi0|Hi0].
  - rewrite pow_nonneg_value by done. simpl.
    rewrite pow_nonneg_value by (apply Z.pow_nonneg; lia). simpl.
    assert (0 < 2 ^ i) as Hb by (apply Z.pow_pos_nonneg; lia).
    assert (2 ^ (i + 1) = 2 ^ i + 2 ^ i) as Hdouble
      by (rewrite Z.pow_add_r by lia; lia).
    replace (i - 1 + 1) with i in IH by lia.
    rewrite <- Z.pow_add_r by lia.
    destruct (Z.geb_spec n (2 ^ (e + 2 ^ i))) as [Hge|Hlt].
    + apply IH; try lia.
      replace (i - 1 + 1) with i by lia.
      split; [done|]. by rewrite <- Z.add_assoc, <- Hdouble.
    + apply IH; try lia. replace (i - 1 + 1) with i by lia. lia.
  - f_equal. symmetry. apply Z.log2_unique; [done|].
    replace (i + 1) with 0 in Hhi by lia.
    rewrite Z.pow_0_r in Hhi. replace (Z.succ e) with (e + 1) by lia. lia.
Qed.

Lemma ilog2_value fuel n :
  1 ≤ n → Z.log2 n + 3 ≤ Z.of_nat fuel → ilog2 fuel n = Value (Z.log2 n).
Proof.
  intros Hn Hfuel. unfold ilog2.
  destruct (ilog2_up_spec fuel n 0 Hn) as (i & -> & Hi & Hlt);
    [lia|pose proof (Z.log2_nonneg n); lia|lia|].
  simpl. apply ilog2_down_spec; try lia.
  rewrite Z.pow_0_r, Z.add_0_l. split; [lia|].
  eapply Z.lt_le_trans; [exact Hlt|].
  apply Z.pow_le_mono_r; [lia|]. apply Z.pow_le_mono_r; lia.
Qed.

Lemma ilog2_value_nonpositive fuel n :
  n ≤ 0 → (2 ≤ fuel)%nat → ilog2 fuel n = Value 0.
Proof.
  intros Hn Hfuel. destruct fuel as [|[|fuel]]; [lia..|].
  assert ((n >=? 2) = false) as Hlt by (rewrite Z.geb_leb; apply Z.leb_gt; lia).
  unfold ilog2.
  change (ilog2_up (S (S fuel)) n 0)
    with (if n >=? 2 then ilog2_up (S fuel) n (0 + 1) else Value 0).
  rewrite Hlt.
  change (Value 0 ≫= (λ i, ilog2_down (S (S fuel)) n i 0 1))
    with (if n >=? 1 * 2 then ilog2_down (S fuel) n (0 - 1) (0 + 1) (1 * 2)
          else ilog2_down (S fuel) n (0 - 1) 0 1).
  change (1 * 2) with 2. by rewrite Hlt.
Qed.

(** X7. [ilog2(n)] is the floor of the binary logarithm of [n] for every
    [n ≥ 1], with fuel above [log2 n + 2]. *)
Theorem ilog2_floor_log2 fuel n :
  1 ≤ n → Z.log2 n + 3 ≤ Z.of_nat fuel →
  ilog2 fuel n = Value (Z.log2 n) ∧ 2 ^ Z.log2 n ≤ n < 2 ^ (Z.log2 n + 1).
Proof.
  intros Hn Hfuel. split; [by apply ilog2_value|].
  pose proof (Z.log2_spec n ltac:(lia)) as H.
  by replace (Z.succ (Z.log2 n)) with (Z.log2 n + 1) in H by lia.
Qed.

Lemma ilog2_floor_log2_witness :
  1 ≤ 1000 ∧ Z.log2 1000 + 3 ≤ Z.of_nat 12 ∧
  ilog2 12 1000 = Value (Z.log2 1000) ∧
  2 ^ Z.log2 1000 ≤ 1000 < 2 ^ (Z.log2 1000 + 1).
Proof.
  split; [lia|]. split; [vm_compute; discriminate|].
  apply (ilog2_floor_log2 12 1000); [lia|vm_compute; discriminate].
Defined.

(** X8. Outside its domain [ilog2] returns 0: for zero and for every
    negative [n], given two units of fuel. *)
Theorem ilog2_nonpositive fuel n :
  n ≤ 0 → (2 ≤ fuel)%nat → ilog2 fuel n = Value 0.
Proof. apply ilog2_value_nonpositive. Qed.

Lemma ilog2_nonpositive_witness :
  -7 ≤ 0 ∧ (2 ≤ 2)%nat ∧ ilog2 2 (-7) = Value 0.
Proof.
  split; [lia|]. split; [lia|]. apply (ilog2_nonpositive 2 (-7)); lia.
Defined.

(** One step of the loop of [sqrt] does not go below the root, and
    goes down as long as it is above it. *)
Lemma newton_step_ge s x :
  1 ≤ s → 0 < x → Z.sqrt s ≤ (x + s / x) / 2.
Proof.
  intros Hs Hx. pose proof (Z.sqrt_spec s ltac:(lia)) as [Hr1 Hr2].
  pose proof (Z.sqrt_nonneg s) as Hr0.
  pose proof (Z.mul_div_le s x Hx) as Hq1.
  pose proof (Z.mul_succ_div_gt s x Hx) as Hq2.
  assert (0 ≤ s / x) as Hq0 by (apply Z.div_pos; lia).
  apply Z.div_le_lower_bound; [lia|].
  destruct (decide (2 * Z.sqrt s ≤ x + s / x)) as [|Hn]; [done|].
  assert (x + s / x + 1 ≤ 2 * Z.sqrt s) as Hsum by lia.
  assert ((x + s / x + 1) * (x + s / x + 1) ≤ (2 * Z.sqrt s) * (2 * Z.sqrt s)) as Hsq
    by (apply Z.mul_le_mono_nonneg; lia).
  pose proof (Z.square_nonneg (x - (s / x + 1))) as Hamgm.
  unfold Z.succ in Hq2. generalize dependent (s / x). intros q.
  generalize dependent (Z.sqrt s). intros r. intros. nia.
Qed.

Lemma newton_step_lt s x :
  1 ≤ s → Z.sqrt s < x → (x + s / x) / 2 < x.
Proof.
  intros Hs Hx. pose proof (Z.sqrt_spec s ltac:(lia)) as [Hr1 Hr2].
  pose proof (Z.sqrt_nonneg s) as Hr0.
  assert (s / x < x) as Hq.
  { apply Z.div_lt_upper_bound; [lia|]. nia. }
  apply Z.div_lt_upper_bound; lia.
Qed.

(** The loop, entered at or above the root, returns the root. *)
Lemma sqrt_loop_spec fuel : ∀ s x xprev,
  1 ≤ s → Z.sqrt s ≤ x → x < xprev →
  x - Z.sqrt s + 2 ≤ Z.of_nat fuel →
  sqrt_loop fuel s x xprev = Value (Z.sqrt s).
Proof.
  induction fuel as [|fuel IH]; intros s x xprev Hs Hx Hprev Hfuel; [lia|].
  assert (1 ≤ Z.sqrt s) as Hr by (apply Z.sqrt_le_square; lia).
  cbn [sqrt_loop]. rewrite (proj2 (Z.gtb_lt xprev x)) by lia.
  rewrite div_value by lia. cbn [mbind result_bind].
  rewrite div_value by lia. cbn [mbind result_bind].
  rewrite !Z.quot_div_nonneg by (try apply Z.add_nonneg_nonneg;
                                 try apply Z.quot_pos; lia).
  pose proof (newton_step_ge s x Hs ltac:(lia)) as Hge.
  destruct (decide (Z.sqrt s < x)) as [Hgt|Heq].
  - pose proof (newton_step_lt s x Hs Hgt) as Hlt.
    apply IH; lia.
  - assert (x = Z.sqrt s) as -> by lia.
    destruct fuel as [|fuel]; [lia|].
    cbn [sqrt_loop]. rewrite Z.gtb_ltb. by rewrite (proj2 (Z.ltb_ge _ _)) by lia.
Qed.

Lemma sqrt_small s : 1 ≤ s < 4 → Z.sqrt s = 1.
Proof.
  intros Hs. apply Z.sqrt_unique. lia.
Qed.

(** The first guess of [sqrt] is at or above the root and not far
    above it. *)
Lemma sqrt_guess s f :
  1 ≤ f → 2 ^ (f * 2) ≤ s →
  let x := (Z.sqrt (s / 2 ^ (f * 2)) + 1) * 2 ^ f in
  Z.sqrt s ≤ x ∧ x ≤ Z.sqrt s + s.
Proof.
  intros Hf Hp x.
  assert (0 < 2 ^ f) as Hpf by (apply Z.pow_pos_nonneg; lia).
  assert (2 ^ (f * 2) = 2 ^ f * 2 ^ f) as Hsq
    by (rewrite Z.pow_mul_r by lia; apply Z.pow_2_r).
  assert (2 ^ f ≤ 2 ^ f * 2 ^ f) as Hle by nia.
  set (p := 2 ^ (f * 2)) in *. set (q := s / p).
  assert (0 < p) as Hp0 by lia.
  assert (1 ≤ q) as Hq1 by (apply Z.div_le_lower_bound; lia).
  pose proof (Z.mul_div_le s p Hp0) as Hq2.
  pose proof (Z.mul_succ_div_gt s p Hp0) as Hq3. fold q in Hq2, Hq3.
  pose proof (Z.sqrt_spec q ltac:(lia)) as [Ha1 Ha2].
  pose proof (Z.sqrt_nonneg q) as Ha0.
  pose proof (Z.sqrt_nonneg s) as Hr0.
  unfold Z.succ in *. subst x. fold q.
  set (a := Z.sqrt q) in *. set (b := 2 ^ f) in *.
  split.
  - apply Z.lt_le_incl, Z.sqrt_lt_square; [lia|nia|].
    assert (p * (q + 1) ≤ p * ((a + 1) * (a + 1))) by (apply Z.mul_le_mono_nonneg_l; lia).
    nia.
  - assert (a * b ≤ Z.sqrt s).
    { apply Z.sqrt_le_square; [lia|nia|].
      assert (p * (a * a) ≤ p * q) by (apply Z.mul_le_mono_nonneg_l; lia).
      nia. }
    nia.
Qed.

Lemma sqrt_value fuel : ∀ s,
  1 ≤ s → s + 3 ≤ Z.of_nat fuel → sqrt fuel s = Value (Z.sqrt s).
Proof.
  induction fuel as [|fuel IH]; intros s Hs Hfuel; [lia|].
  pose proof (Z.log2_lt_lin s ltac:(lia)) as Hlog.
  pose proof (Z.log2_nonneg s) as Hlog0.
  pose proof (ilog2_value fuel s Hs ltac:(lia)) as He.
  assert (2 ^ Z.log2 s ≤ s < 2 ^ (Z.log2 s + 1)) as [Hlo Hhi].
  { pose proof (Z.log2_spec s ltac:(lia)) as H.
    by replace (Z.succ (Z.log2 s)) with (Z.log2 s + 1) in H by lia. }
  cbn [sqrt]. rewrite He. cbn [mbind result_bind].
  destruct (Z.ltb_spec (Z.log2 s) 2) as [Hsmall|Hbig].
  - f_equal. symmetry. apply sqrt_small. split; [done|].
    eapply Z.lt_le_trans; [exact Hhi|]. change 4 with (2 ^ 2).
    apply Z.pow_le_mono_r; lia.
  - rewrite (div_value (Z.log2 s) 4) by lia. cbn [mbind result_bind].
    rewrite Z.quot_div_nonneg by lia.
    set (f := Z.log2 s / 4 + 1).
    assert (1 ≤ f) as Hf by (subst f; pose proof (Z.div_pos (Z.log2 s) 4); lia).
    assert (f * 2 ≤ Z.log2 s) as Hf2.
    { subst f. pose proof (Z.mul_div_le (Z.log2 s) 4 ltac:(lia)).
      destruct (decide (Z.log2 s < 4)) as [Hlt|Hge].
      - rewrite Z.div_small by lia. lia.
      - lia. }
    assert (2 ^ (f * 2) ≤ s) as Hp.
    { eapply Z.le_trans; [|exact Hlo]. apply Z.pow_le_mono_r; lia. }
    assert (0 < 2 ^ (f * 2)) as Hp0 by (apply Z.pow_pos_nonneg; lia).
    assert (4 ≤ 2 ^ (f * 2)) as Hp4.
    { change 4 with (2 ^ 2). apply Z.pow_le_mono_r; lia. }
    rewrite (pow_nonneg_value 2 (f * 2)), (pow_nonneg_value 2 f) by lia.
    cbn [mbind result_bind].
    rewrite div_value by lia. cbn [mbind result_bind].
    rewrite Z.quot_div_nonneg by lia.
    assert (1 ≤ s / 2 ^ (f * 2)) as Hq1 by (apply Z.div_le_lower_bound; lia).
    assert (s / 2 ^ (f * 2) < s) as Hq2 by (apply Z.div_lt; lia).
    rewrite (IH (s / 2 ^ (f * 2)) Hq1 ltac:(lia)).
    cbn [mbind result_bind].
    destruct (sqrt_guess s f Hf Hp) as [Hg1 Hg2].
    apply sqrt_loop_spec; lia.
Qed.

Lemma sqrt_value_below_four fuel s :
  s < 4 → (5 ≤ fuel)%nat → sqrt fuel s = Value 1.
Proof.
  intros Hs Hfuel. destruct fuel as [|fuel]; [lia|].
  cbn [sqrt]. destruct (decide (s ≤ 0)) as [Hneg|Hpos].
  - by rewrite ilog2_value_nonpositive by lia.
  - assert (Z.log2 s ≤ 1) as Hlog.
    { apply Z.lt_succ_r, Z.log2_lt_pow2; [lia|]. change (2 ^ Z.succ 1) with 4. lia. }
    pose proof (Z.log2_nonneg s).
    rewrite (ilog2_value fuel s) by lia.
    cbn [mbind result_bind]. by rewrite (proj2 (Z.ltb_lt _ 2)) by lia.
Qed.

(** X9. [sqrt(S)] is the floor of the square root of [S] for every
    [S ≥ 1], with fuel above [S + 2]. *)
Theorem sqrt_floor fuel s :
  1 ≤ s → s + 3 ≤ Z.of_nat fuel →
  sqrt fuel s = Value (Z.sqrt s) ∧
  Z.sqrt s * Z.sqrt s ≤ s < (Z.sqrt s + 1) * (Z.sqrt s + 1).
Proof.
  intros Hs Hfuel. split; [by apply sqrt_value|by apply Z.sqrt_spec; lia].
Qed.

Lemma sqrt_floor_witness :
  1 ≤ 17 ∧ 17 + 3 ≤ Z.of_nat 20 ∧
  sqrt 20 17 = Value (Z.sqrt 17) ∧
  Z.sqrt 17 * Z.sqrt 17 ≤ 17 < (Z.sqrt 17 + 1) * (Z.sqrt 17 + 1).
Proof.
  split; [lia|]. split; [lia|]. apply (sqrt_floor 20 17); lia.
Defined.

(** X10. Below 4 [sqrt] returns 1: for 1, 2 and 3, and also for 0 and
    for every negative [S]. *)
Theorem sqrt_below_four fuel s :
  s < 4 → (5 ≤ fuel)%nat → sqrt fuel s = Value 1.
Proof. apply sqrt_value_below_four. Qed.

Lemma sqrt_below_four_witness :
  0 < 4 ∧ (5 ≤ 5)%nat ∧ sqrt 5 0 = Value 1.
Proof.
  split; [lia|]. split; [lia|]. apply (sqrt_below_four 5 0); lia.
Defined.

(** X11. For a value of at least 1 and at least -1 decimal digits,
    [squareRoot] returns the decimal numeral of the floor of the square
    root of [value * 10 ^ (2 * decimalDigits + 2)], plus 5. *)
Theorem squareRoot_numeral fuel value decimalDigits :
  1 ≤ value → -1 ≤ decimalDigits →
  value * 10 ^ (decimalDigits * 2 + 2) + 3 ≤ Z.of_nat fuel →
  squareRoot fuel value decimalDigits
  = Value (pretty (Z.sqrt (value * 10 ^ (decimalDigits * 2 + 2)) + 5)).
Proof.
  intros Hv Hd Hfuel. unfold squareRoot.
  rewrite pow_nonneg_value by lia. cbn [mbind result_bind].
  assert (1 ≤ 10 ^ (decimalDigits * 2 + 2)) as Hp
    by (pose proof (Z.pow_pos_nonneg 10 (decimalDigits * 2 + 2)); lia).
  rewrite (sqrt_value fuel (value * 10 ^ (decimalDigits * 2 + 2)));
    [done|nia|lia].
Qed.

Lemma squareRoot_numeral_witness :
  1 ≤ 2 ∧ -1 ≤ 0 ∧ 2 * 10 ^ (0 * 2 + 2) + 3 ≤ Z.of_nat 203 ∧
  squareRoot 203 2 0 = Value (pretty (Z.sqrt (2 * 10 ^ (0 * 2 + 2)) + 5)).
Proof.
  split; [lia|]. split; [lia|]. split; [vm_compute; discriminate|].
  apply (squareRoot_numeral 203 2 0); [lia|lia|vm_compute; discriminate].
Defined.

(** X12. With fewer than -1 decimal digits [squareRoot] throws a
    [RangeError], whatever the value; with a value of 0 or less it
    returns ["6"]. *)
Theorem squareRoot_edges fuel value decimalDigits :
  (decimalDigits < -1 → squareRoot fuel value decimalDigits = RangeError) ∧
  (-1 ≤ decimalDigits → value ≤ 0 → (5 ≤ fuel)%nat →
   squareRoot fuel value decimalDigits = Value "6").
Proof.
  unfold squareRoot, pow. split.
  - intros Hd. by rewrite (proj2 (Z.ltb_lt _ 0)) by lia.
  - intros Hd Hv Hfuel. rewrite (proj2 (Z.ltb_ge _ 0)) by lia.
    cbn [mbind result_bind].
    assert (0 < 10 ^ (decimalDigits * 2 + 2)) as Hp
      by (apply Z.pow_pos_nonneg; lia).
    by rewrite sqrt_value_below_four by (nia || lia).
Qed.

Lemma squareRoot_edges_witness :
  squareRoot 0 2 (-2) = RangeError ∧ squareRoot 5 0 3 = Value "6".
Proof.
  split.
  - apply (proj1 (squareRoot_edges 0 2 (-2))). lia.
  - apply (proj2 (squareRoot_edges 5 0 3)); lia.
Defined.

End BigIntFacts.

(** * Properties of concurrent calls, whatever the outside world answers *)

Module AnyWorldFacts.
Import MultiSigReplayProtection Tasks AnyWorld.

Section Invariant.
Variable encode : Z → completion string.
Variable K : nat.

#[local] Abbreviation inv := (AnyWorld.inv encode K).
#[local] Abbreviation result_ok := (AnyWorld.result_ok encode).

Lemma aw_init b : inv b 0 [] [] None (init K).
Proof.
  split; simpl; try done.
  - by rewrite length_replicate.
  - constructor.
  - intros i Hi. by apply elem_of_nil in Hi.
  - intros i Hi. by apply elem_of_nil in Hi.
  - intros i Hi _. by apply lookup_replicate_2.
Qed.

(** Where a task stands, from its program point. *)
Lemma aw_role b f arr served holder s i p :
  inv b f arr served holder s →
  tasks s !! i = Some p →
  ((i ∉ arr) ∧ p = NotCalled) ∨
  (∃ j r, served !! j = Some i ∧ p = Finished r ∧ result_ok b f j r) ∨
  (holder = Some i ∧ at_pc b (length served - f) p (inst s)) ∨
  (i ∈ Lock.waiters (lock (inst s)) ∧ p = Queued).
Proof.
  intros [Hlen Hnd Harr Hb Hfl Hh Hs Hq Hf] Hp.
  assert (i < K) as HiK by (rewrite <- Hlen; by eapply lookup_lt_Some).
  destruct (decide (i ∈ arr)) as [Hin|Hnin].
  - rewrite Harr in Hin. apply elem_of_app in Hin as [Hin|Hin].
    + right; left. apply list_elem_of_lookup in Hin as [j Hj].
      destruct (Hs _ _ Hj) as (r & Hr & Hok). exists j, r.
      split_and!; [done| |done]. by simplify_eq.
    + apply elem_of_app in Hin as [Hin|Hin].
      * right; right; left. destruct holder as [h|]; simpl in Hin.
        -- apply list_elem_of_singleton in Hin as ->.
           destruct Hh as [_ (p' & Hp' & Hat)]. split; [done|].
           by simplify_eq.
        -- by apply elem_of_nil in Hin.
      * right; right; right. split; [done|]. specialize (Hq _ Hin). by simplify_eq.
  - left. split; [done|]. specialize (Hf _ HiK Hnin). by simplify_eq.
Qed.

Lemma aw_step_call b f arr served holder s i s' :
  inv b f arr served holder s →
  step encode s (Call i) = Some s' →
  ∃ holder', inv b f (arr ++ [i]) served holder' s'.
Proof.
  intros Hinv Hstep. simpl in Hstep.
  destruct (tasks s !! i) as [p|] eqn:Hp; [|done].
  destruct p; try done.
  assert (i < length (tasks s)) as Hlt by (by eapply lookup_lt_Some).
  destruct (aw_role _ _ _ _ _ _ _ _ Hinv Hp)
    as [[Hnin _]|[(j & r & _ & ? & _)|[[_ Hat]|[_ ?]]]]; try done.
  destruct Hinv as [Hlen Hnd Harr Hb Hfl Hh Hs Hq Hf].
  destruct s as [[[ws lk] n log] ts]. simpl in *.
  assert (∀ x, x ∈ arr → x ≠ i) as Hfresh by (by intros x Hx ->).
  assert (NoDup (arr ++ [i])) as Hnd'.
  { apply NoDup_app. split_and!; [done| |apply NoDup_singleton].
    by intros x Hx ->%list_elem_of_singleton. }
  assert (∀ i0, i0 ∈ arr ++ [i] → i0 < K) as Hb'.
  { intros i0 [Hi0|Hi0]%elem_of_app; [by apply Hb|].
    apply list_elem_of_singleton in Hi0 as ->. lia. }
  assert (∀ p' j i0,
            served !! j = Some i0 →
            ∃ r, <[i := p']> ts !! i0 = Some (Finished r) ∧ result_ok b f j r) as Hs'.
  { intros p' j i0 Hj. destruct (Hs _ _ Hj) as (r & Hr & Hok). exists r.
    split; [|done]. rewrite list_lookup_insert_ne; [done|].
    intros ->. apply Hnin. rewrite Harr. apply elem_of_app. left.
    by eapply list_elem_of_lookup_2. }
  assert (∀ p' i0, i0 < K → i0 ∉ arr ++ [i] → <[i := p']> ts !! i0 = Some NotCalled)
    as Hf'.
  { intros p' i0 Hi0 [Hn1 Hn2]%not_elem_of_app.
    rewrite list_lookup_insert_ne; [by apply Hf|]. intros ->.
    by apply Hn2, list_elem_of_singleton. }
  destruct holder as [h|].
  - destruct Hh as [-> (p & Hp' & Hat)]. simpl in Hstep.
    injection Hstep as <-. exists (Some h).
    split; simpl.
    + by rewrite length_insert.
    + done.
    + rewrite Harr. simpl. by rewrite <- !app_assoc.
    + done.
    + done.
    + split; [done|]. exists p. split; [|done].
      rewrite list_lookup_insert_ne; [done|]. intros ->.
      apply Hnin. rewrite Harr. apply elem_of_app. right. by left.
    + apply Hs'.
    + intros i0 [Hi0|Hi0]%elem_of_app.
      * rewrite list_lookup_insert_ne; [by apply Hq|]. intros ->.
        apply Hnin. rewrite Harr. apply elem_of_app. right. by right.
      * apply list_elem_of_singleton in Hi0 as ->.
        by apply list_lookup_insert_eq.
    + apply Hf'.
  - destruct Hh as ([= -> ->] & Hn). simpl in Hstep.
    injection Hstep as <-. exists (Some i).
    split; simpl.
    + by rewrite length_insert.
    + done.
    + rewrite Harr. simpl. by rewrite !app_nil_r.
    + done.
    + done.
    + split; [done|]. exists Ready. split; [|done].
      by apply list_lookup_insert_eq.
    + apply Hs'.
    + intros i0 Hi0. by apply elem_of_nil in Hi0.
    + apply Hf'.
Qed.

(** The holder of the lock moves to another program point inside
    [getNonce]; the first value may be set while no call has succeeded
    yet. *)
Lemma aw_holder_moves b b' f arr served i s inst' p' :
  inv b f arr served (Some i) s →
  lock inst' = lock (inst s) →
  at_pc b' (length served - f) p' inst' →
  b' = b ∨ f = length served →
  inv b' f arr served (Some i) (mkSys inst' (<[i := p']> (tasks s))).
Proof.
  intros [Hlen Hnd Harr Hb Hfl Hh Hs Hq Hf] Hl Hat Hb'.
  destruct Hh as [Hlocked (p & Hp & _)].
  assert (i < length (tasks s)) as Hlt by (by eapply lookup_lt_Some).
  assert (i ∈ arr) as Hin.
  { rewrite Harr. apply elem_of_app. right. apply elem_of_app. left. by left. }
  split; simpl; rewrite ?Hl.
  - by rewrite length_insert.
  - done.
  - done.
  - done.
  - done.
  - split; [done|]. exists p'. split; [|done]. by apply list_lookup_insert_eq.
  - intros j i0 Hj. destruct (Hs _ _ Hj) as (r & Hr & Hok). exists r. split.
    + rewrite list_lookup_insert_ne; [done|]. intros ->.
      assert (i0 ∈ served) as Hi0 by (by eapply list_elem_of_lookup_2).
      rewrite Harr in Hnd. apply NoDup_app in Hnd as (_ & Hnd & _).
      apply (Hnd _ Hi0). apply elem_of_app. left. by apply list_elem_of_singleton.
    + destruct Hb' as [-> | Hfull]; [done|].
      pose proof (lookup_lt_Some _ _ _ Hj) as Hjl.
      unfold result_ok, AnyWorld.result_ok in *.
      by rewrite decide_True in * by lia.
  - intros i0 Hi0.
    rewrite list_lookup_insert_ne; [by apply Hq|]. intros ->.
    rewrite Harr in Hnd. apply NoDup_app in Hnd as (_ & _ & Hnd).
    simpl in Hnd. apply NoDup_cons in Hnd as [Hnd _]. done.
  - intros i0 Hi0 Hn.
    rewrite list_lookup_insert_ne; [by apply Hf|]. intros ->. done.
Qed.

Lemma aw_step_inside b f arr served holder s e s' :
  inv b f arr served holder s →
  match e with Enter _ | CodeReply _ _ | NonceReply _ _ => True | _ => False end →
  step encode s e = Some s' →
  ∃ b', inv b' f arr served holder s'.
Proof.
  intros Hinv He Hstep.
  pose proof (inv_failed _ _ _ _ _ _ _ _ Hinv) as Hfl.
  destruct e as [i|i|i r|i r|i]; try done; simpl in Hstep;
    destruct (tasks s !! i) as [p|] eqn:Hp; try done;
    destruct p; try done;
    destruct (aw_role _ _ _ _ _ _ _ _ Hinv Hp)
      as [[_ ?]|[(j & r0 & _ & ? & _)|[[-> Hat]|[_ ?]]]]; try done;
    simpl in Hat.
  - (* Enter *)
    destruct (length served - f) as [|d] eqn:Hd; simpl in Hat; rewrite Hat in Hstep;
      injection Hstep as <-; exists b;
      (apply (aw_holder_moves b); [exact Hinv|done| |by left]); rewrite Hd; simpl.
    + done.
    + by split.
  - (* CodeReply *)
    destruct Hat as [Hd Hn]. destruct r as [code|err].
    + case_bool_decide as Hc; injection Hstep as <-.
      * exists b. apply (aw_holder_moves b); [exact Hinv|done| |by left].
        rewrite Hd. by simpl.
      * exists 0%Z. apply (aw_holder_moves b); [exact Hinv|done| |right; lia].
        rewrite Hd. by simpl.
    + injection Hstep as <-. exists b.
      apply (aw_holder_moves b); [exact Hinv|done| |by left].
      rewrite Hd. by simpl.
  - (* NonceReply *)
    destruct Hat as [Hd Hn]. destruct r as [n|err].
    + injection Hstep as <-. exists n.
      apply (aw_holder_moves b); [exact Hinv|done| |right; lia].
      rewrite Hd. simpl. by split.
    + injection Hstep as <-. exists b.
      apply (aw_holder_moves b); [exact Hinv|done| |by left].
      rewrite Hd. by simpl.
Qed.

Lemma aw_step_leave b f arr served holder s i s' :
  inv b f arr served holder s →
  step encode s (Leave i) = Some s' →
  ∃ f' holder', inv b f' arr (served ++ [i]) holder' s'.
Proof.
  intros Hinv Hstep. simpl in Hstep.
  destruct (tasks s !! i) as [p|] eqn:Hp; [|done].
  destruct p as [| | | | |r|]; try done.
  assert (i < length (tasks s)) as Hlt by (by eapply lookup_lt_Some).
  destruct (aw_role _ _ _ _ _ _ _ _ Hinv Hp)
    as [[_ ?]|[(j & r0 & _ & ? & _)|[[-> Hat]|[_ ?]]]]; try done.
  destruct Hinv as [Hlen Hnd Harr Hb Hfl Hh Hs Hq Hf].
  destruct Hh as [Hlocked _].
  destruct s as [[[ws lk] n log] ts]. simpl in *. subst lk.
  assert (length (served ++ [i]) = S (length served)) as Hlen'
    by (rewrite length_app; simpl; lia).
  set (body := match r with Normal x => encode x | Throw e => Throw e end)
    in Hstep.
  (* the number of failed calls afterwards, and what is cached then *)
  assert (∃ f', f' ≤ S (length served) ∧
                n = cached b (S (length served) - f') ∧
                result_ok b f' (length served) body ∧
                ∀ j r0, j < length served → result_ok b f j r0 → result_ok b f' j r0)
    as (f' & Hfl' & Hn' & Hbody & Hkeep).
  { destruct r as [x|e]; simpl in Hat.
    - destruct Hat as [-> ->]. exists f. split_and!; [lia| | |done].
      + replace (S (length served) - f) with (S (length served - f)) by lia.
        done.
      + unfold result_ok, AnyWorld.result_ok. by rewrite decide_False by lia.
    - destruct Hat as [Hd ->]. exists (S f). split_and!; [lia| | |].
      + by replace (S (length served) - S f) with 0 by lia.
      + unfold result_ok, AnyWorld.result_ok. rewrite decide_True by lia. eauto.
      + intros j r0 Hj. unfold result_ok, AnyWorld.result_ok.
        by rewrite !decide_True by lia. }
  clearbody body. clear Hat.
  assert (NoDup (served ++ i :: ws)) as Hnd' by (by rewrite <- Harr).
  apply NoDup_app in Hnd' as (Hnd1 & Hnd2 & Hnd3).
  apply NoDup_cons in Hnd3 as [Hnd3 Hnd4].
  assert (∀ i0, i0 ∈ served → i0 ≠ i) as Hsi.
  { intros i0 Hi0 ->. apply (Hnd2 _ Hi0). by left. }
  assert (∀ j i0,
            (served ++ [i]) !! j = Some i0 →
            ∃ r0, <[i := Finished body]> ts !! i0 = Some (Finished r0) ∧
                  result_ok b f' j r0) as Hs'.
  { intros j i0 [Hj| [-> ->]]%TasksFacts.lookup_snoc_inv.
    - destruct (Hs _ _ Hj) as (r0 & Hr0 & Hok). exists r0. split.
      + rewrite list_lookup_insert_ne; [done|].
        intros ->. by eapply Hsi; [eapply list_elem_of_lookup_2|].
      + apply Hkeep; [by eapply lookup_lt_Some|done].
    - exists body. split; [by apply list_lookup_insert_eq|done]. }
  unfold finish, on_lock, Lock.release in Hstep. munfold. simpl in Hstep.
  destruct ws as [|w ws]; simpl in Hstep; injection Hstep as <-.
  - exists f', None. split; simpl.
    + by rewrite length_insert.
    + done.
    + rewrite Harr. simpl. by rewrite <- app_assoc.
    + done.
    + lia.
    + rewrite Hlen'. by split.
    + done.
    + intros i0 Hi0. by apply elem_of_nil in Hi0.
    + intros i0 Hi0 Hn.
      rewrite list_lookup_insert_ne; [by apply Hf|]. intros ->.
      apply Hn. rewrite Harr. apply elem_of_app. right. by left.
  - apply NoDup_cons in Hnd4 as [Hw1 Hw2].
    assert (w ∈ arr) as Hwarr.
    { rewrite Harr. apply elem_of_app. right. right. by left. }
    assert (w < length ts) as Hw by (rewrite Hlen; by apply Hb).
    assert (w ≠ i) as Hwi by (intros ->; apply Hnd3; by left).
    exists f', (Some w). split; simpl.
    + by rewrite !length_insert.
    + done.
    + rewrite Harr. simpl. by rewrite <- app_assoc.
    + done.
    + lia.
    + split; [done|]. exists Ready. split.
      * apply list_lookup_insert_eq. by rewrite length_insert.
      * simpl. by rewrite Hlen'.
    + intros j i0 Hj. destruct (Hs' _ _ Hj) as (r0 & Hr0 & Hok).
      exists r0. split; [|done].
      rewrite list_lookup_insert_ne; [done|]. intros ->.
      apply TasksFacts.lookup_snoc_inv in Hj as [Hj|[_ ->]]; [|done].
      eapply Hnd2; [by eapply list_elem_of_lookup_2|]. right. by left.
    + intros i0 Hi0.
      rewrite !list_lookup_insert_ne; [apply Hq; by right| |].
      * intros ->. apply Hnd3. by right.
      * intros ->. done.
    + intros i0 Hi0 Hn.
      rewrite !list_lookup_insert_ne; [by apply Hf| |].
      * intros ->. apply Hn. rewrite Harr. apply elem_of_app. right. by left.
      * intros ->. done.
Qed.

Lemma aw_step_inv b f arr served holder s e s' :
  inv b f arr served holder s →
  step encode s e = Some s' →
  ∃ b' f' served' holder', inv b' f' (arr ++ callers [e]) served' holder' s'.
Proof.
  intros Hinv Hstep. destruct e as [i|i|i r|i r|i].
  - destruct (aw_step_call _ _ _ _ _ _ _ _ Hinv Hstep) as [holder' H]. eauto.
  - simpl. rewrite app_nil_r.
    destruct (aw_step_inside _ _ _ _ _ _ (Enter i) _ Hinv I Hstep) as [b' H]. eauto.
  - simpl. rewrite app_nil_r.
    destruct (aw_step_inside _ _ _ _ _ _ (CodeReply i r) _ Hinv I Hstep) as [b' H].
    eauto.
  - simpl. rewrite app_nil_r.
    destruct (aw_step_inside _ _ _ _ _ _ (NonceReply i r) _ Hinv I Hstep) as [b' H].
    eauto.
  - simpl. rewrite app_nil_r.
    destruct (aw_step_leave _ _ _ _ _ _ _ _ Hinv Hstep) as (f' & holder' & H). eauto.
Qed.

Lemma aw_exec_inv sched : ∀ b f arr served holder s s',
  inv b f arr served holder s →
  exec encode sched s = Some s' →
  ∃ b' f' served' holder', inv b' f' (arr ++ callers sched) served' holder' s'.
Proof.
  induction sched as [|e sched IH]; intros b f arr served holder s s' Hinv Hexec.
  - simpl in *. injection Hexec as <-. rewrite app_nil_r. eauto.
  - simpl in Hexec.
    destruct (step encode s e) as [s1|] eqn:Hstep; [|done].
    destruct (aw_step_inv _ _ _ _ _ _ _ _ Hinv Hstep)
      as (b1 & f1 & served1 & holder1 & Hinv1).
    rewrite TasksFacts.callers_cons, app_assoc. eauto.
Qed.

Lemma aw_inside_is_holder b f arr served holder s i p :
  inv b f arr served holder s →
  tasks s !! i = Some p → inside p →
  holder = Some i ∧ Lock.mLocked (lock (inst s)) = true.
Proof.
  intros Hinv Hp Hin.
  destruct (aw_role _ _ _ _ _ _ _ _ Hinv Hp)
    as [[_ ->]|[(j & r & _ & -> & _)|[[-> Hat]|[_ ->]]]]; try done.
  split; [done|]. by destruct Hinv as [_ _ _ _ _ [? _] _ _ _].
Qed.

Lemma aw_finished_free b f arr served holder s :
  inv b f arr served holder s → finished s → lock (inst s) = Lock.new.
Proof.
  intros Hinv Hfin. pose proof Hinv as [_ _ _ _ _ Hh _ _ _].
  destruct holder as [h|]; [|by destruct Hh].
  destruct Hh as [_ (p & Hp & Hat)]. destruct (Hfin _ _ Hp) as [r ->]. done.
Qed.

Lemma aw_result b f arr served holder s j i r :
  inv b f arr served holder s →
  arr !! j = Some i →
  tasks s !! i = Some (Finished r) →
  j < length served ∧ result_ok b f j r.
Proof.
  intros Hinv Hj Hp.
  destruct (aw_role _ _ _ _ _ _ _ _ Hinv Hp)
    as [[_ ?]|[(j' & r' & Hj' & Hr & Hok)|[[_ Hat]|[_ ?]]]]; try done.
  destruct Hinv as [_ Hnd Harr _ _ _ _ _ _].
  assert (arr !! j' = Some i) as Hj'' by (rewrite Harr; by apply lookup_app_l_Some).
  assert (j = j') as -> by (by eapply NoDup_lookup).
  split; [by eapply lookup_lt_Some|]. by simplify_eq.
Qed.

(** A caller that has been given the lock stands right after the
    callers served. *)
Lemma aw_served_before b f arr served holder s j i p :
  inv b f arr served holder s →
  arr !! j = Some i →
  tasks s !! i = Some p →
  inside p ∨ (∃ r, p = Finished r) →
  j ≤ length served.
Proof.
  intros Hinv Hj Hp Hpc.
  destruct (aw_role _ _ _ _ _ _ _ _ Hinv Hp)
    as [[Hn _]|[(j' & r' & Hj' & _ & _)|[[-> _]|[_ ->]]]].
  - destruct Hn. by eapply list_elem_of_lookup_2.
  - destruct Hinv as [_ Hnd Harr _ _ _ _ _ _].
    assert (arr !! j' = Some i) as Hj'' by (rewrite Harr; by apply lookup_app_l_Some).
    assert (j = j') as -> by (by eapply NoDup_lookup).
    apply lookup_lt_Some in Hj'. lia.
  - destruct Hinv as [_ Hnd Harr _ _ _ _ _ _].
    assert (arr !! length served = Some i) as Hj''.
    { rewrite Harr. rewrite lookup_app_r by lia. by rewrite Nat.sub_diag. }
    assert (j = length served) as -> by (by eapply NoDup_lookup). lia.
  - by destruct Hpc as [?|[? ?]].
Qed.

(** A task that is neither queued nor finished has its next event
    allowed, whatever the reply it brings. *)
Lemma aw_step_enabled rc rn b f arr served holder s i p :
  inv b f arr served holder s →
  tasks s !! i = Some p →
  0 < rank p → p ≠ Queued →
  ∃ e s', replies rc rn e ∧ step encode s e = Some s' ∧
          remaining (tasks s') < remaining (tasks s).
Proof.
  intros Hinv Hp Hr Hq.
  destruct p as [| | | | |r|r]; simpl in Hr; try done; try lia.
  - (* NotCalled *)
    exists (Call i). simpl. rewrite Hp.
    destruct s as [[[ws lk] n log] ts]. simpl in *.
    destruct lk; simpl; eexists; (split_and!; [done..|]); simpl.
    + pose proof (TasksFacts.remaining_insert ts i _ Queued Hp). simpl in *. lia.
    + pose proof (TasksFacts.remaining_insert ts i _ Ready Hp). simpl in *. lia.
  - (* Ready *)
    exists (Enter i). simpl. rewrite Hp.
    destruct (nonce (inst s)); eexists; (split_and!; [done..|]); simpl.
    + pose proof (TasksFacts.remaining_insert (tasks s) i _
                    (GotNonce (Normal (Number.succ z))) Hp).
      simpl in *. lia.
    + pose proof (TasksFacts.remaining_insert (tasks s) i _ AwaitingCode Hp).
      simpl in *. lia.
  - (* AwaitingCode *)
    exists (CodeReply i rc). simpl. rewrite Hp.
    destruct rc as [code|err]; [case_bool_decide|];
      eexists; (split_and!; [done..|]); simpl.
    + pose proof (TasksFacts.remaining_insert (tasks s) i _ AwaitingSafeNonce Hp).
      simpl in *. lia.
    + pose proof (TasksFacts.remaining_insert (tasks s) i _
                    (GotNonce (Normal 0%Z)) Hp).
      simpl in *. lia.
    + pose proof (TasksFacts.remaining_insert (tasks s) i _
                    (GotNonce (Throw err)) Hp).
      simpl in *. lia.
  - (* AwaitingSafeNonce *)
    exists (NonceReply i rn). simpl. rewrite Hp.
    destruct rn as [x|err]; eexists; (split_and!; [done..|]); simpl.
    + pose proof (TasksFacts.remaining_insert (tasks s) i _
                    (GotNonce (Normal x)) Hp).
      simpl in *. lia.
    + pose proof (TasksFacts.remaining_insert (tasks s) i _
                    (GotNonce (Throw err)) Hp).
      simpl in *. lia.
  - (* GotNonce *)
    exists (Leave i). simpl. rewrite Hp.
    eexists; (split_and!; [done..|]).
    destruct (aw_inside_is_holder _ _ _ _ _ _ _ _ Hinv Hp I) as [-> Hlocked].
    destruct Hinv as [Hlen Hnd Harr Hb Hfl Hh Hs Hqu Hf].
    destruct s as [[[ws lk] n log] ts]. simpl in *. subst lk.
    unfold finish, on_lock, Lock.release. munfold. simpl.
    set (res := match r with Normal n0 => encode n0 | Throw e => Throw e end).
    pose proof (TasksFacts.remaining_insert ts i _ (Finished res) Hp) as H1.
    simpl in H1.
    destruct ws as [|w ws]; simpl; [lia|].
    assert (<[i := Finished res]> ts !! w = Some Queued) as Hw.
    { rewrite list_lookup_insert_ne; [apply Hqu; by left|]. intros ->.
      rewrite Harr in Hnd. apply NoDup_app in Hnd as (_ & _ & Hnd).
      simpl in Hnd. apply NoDup_cons in Hnd as [Hnd _]. apply Hnd. by left. }
    pose proof (TasksFacts.remaining_insert _ w _ Ready Hw) as H2. simpl in H2. lia.
Qed.

Lemma aw_completes rc rn n : ∀ b f arr served holder s,
  remaining (tasks s) ≤ n →
  inv b f arr served holder s →
  ∃ sched s', Forall (replies rc rn) sched ∧
              exec encode sched s = Some s' ∧ finished s'.
Proof.
  induction n as [|n IH]; intros b f arr served holder s Hn Hinv.
  - exists [], s. split_and!; [done..|].
    intros i p. apply TasksFacts.remaining_zero. lia.
  - destruct (decide (remaining (tasks s) = 0)) as [Hz|Hnz].
    { exists [], s. split_and!; [done..|].
      intros i p. by apply TasksFacts.remaining_zero. }
    destruct (TasksFacts.remaining_pos (tasks s)) as (i & p & Hp & Hr); [lia|].
    assert (∃ i' p', tasks s !! i' = Some p' ∧ 0 < rank p' ∧ p' ≠ Queued)
      as (i' & p' & Hp' & Hr' & Hq').
    { assert (p = Queued ∨ p ≠ Queued) as [->|]
        by (destruct p; auto); [|by eauto].
      destruct (aw_role _ _ _ _ _ _ _ _ Hinv Hp)
        as [[_ ?]|[(j & r & _ & ? & _)|[[_ Hat]|[Hin _]]]]; try done.
      destruct Hinv as [_ _ _ _ _ Hh _ _ _]. destruct holder as [h|].
      - destruct Hh as [_ (ph & Hph & Hat)]. exists h, ph.
        split; [done|]. destruct ph; simpl in *; try done; split; (lia || done).
      - destruct Hh as [Hl _]. rewrite Hl in Hin. by apply elem_of_nil in Hin. }
    destruct (aw_step_enabled rc rn _ _ _ _ _ _ _ _ Hinv Hp' Hr' Hq')
      as (e & s1 & He & Hstep & Hlt).
    destruct (aw_step_inv _ _ _ _ _ _ _ _ Hinv Hstep)
      as (b1 & f1 & served1 & holder1 & Hinv1).
    destruct (IH _ _ _ _ _ s1 ltac:(lia) Hinv1) as (sched & s' & Hans & Hexec & Hfin).
    exists (e :: sched), s'. split_and!; [by constructor| |done].
    simpl. by rewrite Hstep.
Qed.

End Invariant.

(** X13. Whatever the outside world replies (any code, any nonce, any
    rejection) and however the calls interleave, at most one call of
    [getEncodedReplayProtection] is between its [acquire] and its
    [release] at a time, the lock is locked while one is there, and it
    is unlocked with an empty queue once every call has finished. *)
Theorem one_call_between_acquire_and_release encode K sched s :
  exec encode sched (init K) = Some s →
  (∀ i i' p p',
     tasks s !! i = Some p → tasks s !! i' = Some p' →
     inside p → inside p' → i = i') ∧
  (∀ i p, tasks s !! i = Some p → inside p →
          Lock.mLocked (lock (inst s)) = true) ∧
  (finished s → lock (inst s) = Lock.new).
Proof.
  intros Hexec.
  destruct (aw_exec_inv encode K sched 0%Z 0 [] [] None _ _ (aw_init encode K 0%Z) Hexec)
    as (b & f & served & holder & Hinv).
  split_and!.
  - intros i i' p p' Hp Hp' Hin Hin'.
    destruct (aw_inside_is_holder _ _ _ _ _ _ _ _ _ _ Hinv Hp Hin) as [Hh _].
    destruct (aw_inside_is_holder _ _ _ _ _ _ _ _ _ _ Hinv Hp' Hin') as [Hh' _].
    congruence.
  - intros i p Hp Hin.
    by destruct (aw_inside_is_holder _ _ _ _ _ _ _ _ _ _ Hinv Hp Hin).
  - by eapply aw_finished_free.
Qed.

Lemma one_call_between_acquire_and_release_witness :
  let sched :=
    [Call 0; Call 1; Enter 0; CodeReply 0 (Throw (ExternalError "timeout"));
     Call 2; Leave 0; Enter 1] in
  let s := mkSys (mk (Lock.mk [2] true) None [GetCode; GetCode])
                 [Finished (Throw (ExternalError "timeout")); AwaitingCode; Queued] in
  exec decimal sched (init 3) = Some s ∧
  (∀ i i' p p',
     tasks s !! i = Some p → tasks s !! i' = Some p' →
     inside p → inside p' → i = i') ∧
  (∀ i p, tasks s !! i = Some p → inside p →
          Lock.mLocked (lock (inst s)) = true) ∧
  (finished s → lock (inst s) = Lock.new).
Proof.
  intros sched s.
  assert (exec decimal sched (init 3) = Some s) as Hexec by (vm_compute; reflexivity).
  split; [exact Hexec|].
  exact (one_call_between_acquire_and_release decimal 3 sched s Hexec).
Defined.

(** X14. Whatever the outside world replies and however the calls
    interleave, the results of the calls of one instance, read in the
    order in which the calls were made, are these: the calls whose read
    was rejected while [nonce] was unset come first and are rejected;
    from the first call whose read succeeded, with a value [b], no read
    is rejected any more, the calls read [b], [b + 1], [b + 1 + 1], ...
    in turn, none twice and none left out, and each completes as the
    coder does on what it read.  When every call has finished the
    instance holds the last value read, or nothing when every read was
    rejected.  The values read are [b], [b + 1], [b + 2], ... as
    integers as long as they stay between -2^53 and 2^53. *)
Theorem rejections_then_consecutive_values encode K sched s :
  exec encode sched (init K) = Some s →
  NoDup (callers sched) ∧
  ∃ b failed,
    failed ≤ length (callers sched) ∧
    (∀ j i r,
       callers sched !! j = Some i →
       tasks s !! i = Some (Finished r) →
       if decide (j < failed) then ∃ e, r = Throw e
       else r = encode (Number.after (j - failed) b)) ∧
    (finished s →
     nonce (inst s) = cached b (length (callers sched) - failed)) ∧
    (∀ k, (- 2 ^ 53 ≤ b)%Z → (b + Z.of_nat k ≤ 2 ^ 53)%Z →
          Number.after k b = (b + Z.of_nat k)%Z).
Proof.
  intros Hexec.
  destruct (aw_exec_inv encode K sched 0%Z 0 [] [] None _ _ (aw_init encode K 0%Z) Hexec)
    as (b & f & served & holder & Hinv).
  simpl in Hinv. split; [by destruct Hinv|].
  exists b, f. split_and!.
  - destruct Hinv as [_ _ Harr _ Hf _ _ _ _]. rewrite Harr, length_app. lia.
  - intros j i r Hj Hp.
    by destruct (aw_result _ _ _ _ _ _ _ _ _ _ _ Hinv Hj Hp).
  - intros Hfin. pose proof Hinv as [_ _ Harr _ _ Hh _ Hq _].
    destruct holder as [h|].
    { destruct Hh as [_ (p & Hp & Hat)]. destruct (Hfin _ _ Hp) as [r ->]. done. }
    destruct Hh as [Hl Hn]. rewrite Hl in Harr. simpl in Harr.
    rewrite app_nil_r in Harr. by rewrite Harr.
  - intros k. apply NumberFacts.after_exact.
Qed.

Lemma rejections_then_consecutive_values_witness :
  let sched :=
    [Call 0; Call 1; Call 2; Enter 0; CodeReply 0 (Throw (ExternalError "timeout"));
     Leave 0; Enter 1; CodeReply 1 (Normal "0x6080604052");
     NonceReply 1 (Normal 9007199254740990%Z); Leave 1; Enter 2; Leave 2] in
  let s := mkSys (mk Lock.new (Some 9007199254740991%Z) [GetCode; GetCode; SafeNonce])
                 [Finished (Throw (ExternalError "timeout"));
                  Finished (Normal "9007199254740990");
                  Finished (Throw (ExternalError "overflow"))] in
  exec safe_uint sched (init 3) = Some s ∧
  NoDup (callers sched) ∧
  ∃ b failed,
    failed ≤ length (callers sched) ∧
    (∀ j i r,
       callers sched !! j = Some i →
       tasks s !! i = Some (Finished r) →
       if decide (j < failed) then ∃ e, r = Throw e
       else r = safe_uint (Number.after (j - failed) b)) ∧
    (finished s →
     nonce (inst s) = cached b (length (callers sched) - failed)) ∧
    (∀ k, (- 2 ^ 53 ≤ b)%Z → (b + Z.of_nat k ≤ 2 ^ 53)%Z →
          Number.after k b = (b + Z.of_nat k)%Z).
Proof.
  intros sched s.
  assert (exec safe_uint sched (init 3) = Some s) as Hexec by (vm_compute; reflexivity).
  split; [exact Hexec|].
  exact (rejections_then_consecutive_values safe_uint 3 sched s Hexec).
Defined.

(** X15. Calls are served in the order in which they were made: when a
    call has been given the lock, every call made before it has already
    finished. *)
Theorem calls_served_in_call_order encode K sched s j j' i i' p' :
  exec encode sched (init K) = Some s →
  j < j' →
  callers sched !! j = Some i →
  callers sched !! j' = Some i' →
  tasks s !! i' = Some p' →
  inside p' ∨ (∃ r, p' = Finished r) →
  ∃ r, tasks s !! i = Some (Finished r).
Proof.
  intros Hexec Hlt Hj Hj' Hp' Hpc.
  destruct (aw_exec_inv encode K sched 0%Z 0 [] [] None _ _ (aw_init encode K 0%Z) Hexec)
    as (b & f & served & holder & Hinv).
  simpl in Hinv.
  pose proof (aw_served_before _ _ _ _ _ _ _ _ _ _ _ Hinv Hj' Hp' Hpc) as Hle.
  pose proof Hinv as [_ _ Harr _ _ _ Hs _ _].
  assert (served !! j = Some i) as Hsj.
  { rewrite Harr in Hj. by rewrite lookup_app_l in Hj by lia. }
  destruct (Hs _ _ Hsj) as (r & Hr & _). eauto.
Qed.

Lemma calls_served_in_call_order_witness :
  let sched :=
    [Call 2; Call 0; Enter 2; CodeReply 2 (Normal "0x"); Call 1; Leave 2; Enter 0] in
  let s := mkSys (mk (Lock.mk [1] true) (Some 1%Z) [GetCode])
                 [GotNonce (Normal 1%Z); Queued; Finished (decimal 0%Z)] in
  exec decimal sched (init 3) = Some s ∧
  ∃ r, tasks s !! 2 = Some (Finished r).
Proof.
  intros sched s.
  assert (exec decimal sched (init 3) = Some s) as Hexec by (vm_compute; reflexivity).
  split; [exact Hexec|].
  apply (calls_served_in_call_order decimal 3 sched s 0 1 2 0 (GotNonce (Normal 1%Z)) Hexec);
    [lia|reflexivity|reflexivity|reflexivity|left; exact I].
Defined.

(** X16. No call is left waiting for ever: from every state that a run
    reaches, and for any replies of the outside world from then on
    (rejections included), the calls made and those still to be made can
    all be brought to their end, the lock then being free. *)
Theorem every_run_can_be_completed encode K sched s rc rn :
  exec encode sched (init K) = Some s →
  ∃ sched' s',
    Forall (replies rc rn) sched' ∧
    exec encode sched' s = Some s' ∧
    finished s' ∧ lock (inst s') = Lock.new.
Proof.
  intros Hexec.
  destruct (aw_exec_inv encode K sched 0%Z 0 [] [] None _ _ (aw_init encode K 0%Z) Hexec)
    as (b & f & served & holder & Hinv).
  destruct (aw_completes encode K rc rn _ _ _ _ _ _ s (Nat.le_refl _) Hinv)
    as (sched' & s' & Hans & Hexec' & Hfin).
  exists sched', s'. split_and!; [done..|].
  destruct (aw_exec_inv encode K sched' _ _ _ _ _ _ _ Hinv Hexec')
    as (b' & f' & served' & holder' & Hinv').
  by eapply aw_finished_free.
Qed.

Lemma every_run_can_be_completed_witness :
  let sched := [Call 0; Call 1; Enter 0; Call 2] in
  let s := mkSys (mk (Lock.mk [1; 2] true) None [GetCode])
                 [AwaitingCode; Queued; Queued] in
  exec decimal sched (init 3) = Some s ∧
  ∃ sched' s',
    Forall (replies (Throw (ExternalError "timeout")) (Normal 7%Z)) sched' ∧
    exec decimal sched' s = Some s' ∧
    finished s' ∧ lock (inst s') = Lock.new.
Proof.
  intros sched s.
  assert (exec decimal sched (init 3) = Some s) as Hexec by (vm_compute; reflexivity).
  split; [exact Hexec|].
  exact (every_run_can_be_completed decimal 3 sched s
           (Throw (ExternalError "timeout")) (Normal 7%Z) Hexec).
Defined.

End AnyWorldFacts.

(** * Properties of [Logger] *)

Module LoggerFacts.
Import Logger.

Lemma child_of_lt_length σ r c : child_of σ r c → r < length σ.
Proof. intros (l & Hl & _). by eapply lookup_lt_Some. Qed.

Lemma stored_under_le σ r i :
  forest σ → stored_under σ r i → r ≤ i.
Proof.
  intros Hf. induction 1 as [|r c i Hc _ IH]; [lia|].
  apply (forest_later _ Hf) in Hc. lia.
Qed.

(** The loggers a logger is stored under form a chain. *)
Lemma stored_under_chain σ a b i :
  forest σ → stored_under σ a i → stored_under σ b i →
  stored_under σ a b ∨ stored_under σ b a.
Proof.
  intros Hf Ha. revert b. pattern i. revert i Ha. apply rtc_ind_r.
  - intros b Hb. by right.
  - intros p i Ha Hp IH b Hb. apply rtc_inv_r in Hb as [->|(p' & Hb & Hp')].
    + left. by eapply rtc_r.
    + assert (p = p') as <- by (by eapply (forest_parent _ Hf)). by apply IH.
Qed.

(** The loggers stored under two children of one logger are apart. *)
Lemma stored_under_apart σ r c c' i :
  forest σ → child_of σ r c → child_of σ r c' →
  stored_under σ c i → stored_under σ c' i → c = c'.
Proof.
  intros Hf Hc Hc' Hi Hi'.
  assert (∀ x y, child_of σ r x → child_of σ r y → stored_under σ x y → x = y)
    as Hsame.
  { intros x y Hx Hy Hxy.
    apply rtc_inv_r in Hxy as [->|(p & Hxp & Hp)]; [done|].
    assert (p = r) as -> by (by eapply (forest_parent _ Hf)).
    apply (stored_under_le _ _ _ Hf) in Hxp.
    apply (forest_later _ Hf) in Hx. lia. }
  destruct (stored_under_chain _ _ _ _ Hf Hi Hi'); [|symmetry]; by apply Hsame.
Qed.

Lemma for_of_spec {A} (body : nat → option (list A)) (P : nat → list A → Prop) cs :
  (∀ c, c ∈ cs → ∃ tr, body c = Some tr ∧ P c tr) →
  ∃ trs, for_of body cs = Some (concat trs) ∧ Forall2 P cs trs.
Proof.
  induction cs as [|c cs IH]; intros Hb.
  - exists []. by split.
  - destruct (Hb c) as (t1 & Ht1 & HP); [by left|].
    destruct IH as (trs & Hgo & Hall); [intros c' Hc'; apply Hb; by right|].
    exists (t1 :: trs). split; [|by constructor].
    simpl. rewrite Ht1. simpl. fold (for_of body cs). by rewrite Hgo.
Qed.

Lemma reaches_children σ lv r cs trs :
  forest σ →
  NoDup cs → (∀ c, c ∈ cs → child_of σ r c) →
  Forall2 (reaches σ lv) cs trs →
  NoDup (concat trs).*1 ∧
  (∀ i, i ∈ (concat trs).*1 ↔ ∃ c, c ∈ cs ∧ stored_under σ c i) ∧
  (∀ x, x ∈ concat trs → x.2 = lv).
Proof.
  intros Hf Hnd Hcs Hall.
  induction Hall as [|c tr cs trs (Hn & Hin & Hlv & _) Hall IH]; simpl.
  - split_and!; [constructor| |by intros x ?%elem_of_nil].
    intros i. split; [by intros ?%elem_of_nil|].
    by intros (c & ?%elem_of_nil & _).
  - apply NoDup_cons in Hnd as [Hc Hnd].
    destruct IH as (IHn & IHin & IHlv); [done|intros; apply Hcs; by right|].
    rewrite fmap_app. split_and!.
    + apply NoDup_app. split_and!; [done| |done].
      intros i Hi Hi'. apply Hin in Hi. apply IHin in Hi' as (c' & Hc' & Hi').
      assert (c = c') as <-; [|done].
      eapply stored_under_apart; [done| | |done..]; apply Hcs; [by left|by right].
    + intros i. rewrite elem_of_app, Hin, IHin. split.
      * intros [?|(c' & ? & ?)]; [exists c; split; [by left|done]|].
        exists c'. split; [by right|done].
      * intros (c' & [->|?]%elem_of_cons & ?); [by left|right; eauto].
    + intros x [?|?]%elem_of_app; auto.
Qed.

Lemma set_level_reaches σ lv :
  forest σ →
  ∀ fuel r, r < length σ → length σ - r ≤ fuel →
  ∃ tr, set_level fuel lv σ r = Some tr ∧ reaches σ lv r tr.
Proof.
  intros Hf. induction fuel as [|fuel IH]; intros r Hr Hfuel; [lia|].
  destruct (lookup_lt_is_Some_2 σ r Hr) as [l Hl].
  destruct (for_of_spec (set_level fuel lv σ) (reaches σ lv) (children l))
    as (trs & Hgo & Hall).
  { intros c Hc.
    assert (r < c < length σ) by (apply (forest_later _ Hf); by exists l).
    apply IH; lia. }
  assert (∀ c, c ∈ children l → child_of σ r c) as Hcs by (intros; by exists l).
  destruct (reaches_children _ _ _ _ _ Hf (forest_nodup _ Hf _ _ Hl) Hcs Hall)
    as (Hn & Hin & Hlv).
  exists ((r, lv) :: concat trs). split.
  { simpl. rewrite Hl. simpl. rewrite Hgo. done. }
  split_and!; simpl.
  - apply NoDup_cons. split; [|done].
    intros (c & Hc & Hrc)%Hin.
    apply (stored_under_le _ _ _ Hf) in Hrc.
    apply Hcs, (forest_later _ Hf) in Hc. lia.
  - intros i. rewrite elem_of_cons, Hin. split.
    + intros [->|(c & Hc & Hci)]; [done|].
      eapply rtc_l; [by apply Hcs|done].
    + intros Hri. apply rtc_inv in Hri as [->|(c & (l' & Hl' & Hc) & Hci)]; [by left|].
      right. exists c. by simplify_eq.
  - intros x [->|?]%elem_of_cons; auto.
  - done.
Qed.

Lemma forest_nil : forest [].
Proof.
  split.
  - intros r c (l & Hl & _). done.
  - intros r r' c (l & Hl & _). done.
  - intros r l Hl. done.
Qed.

Lemma child_of_alloc σ r c :
  child_of (alloc σ).2 r c ↔ child_of σ r c.
Proof.
  unfold child_of, alloc. simpl. split; intros (l & Hl & Hc).
  - apply lookup_app_Some in Hl as [Hl|[_ Hl]]; [by exists l|].
    apply list_lookup_singleton_Some in Hl as [_ <-]. by apply elem_of_nil in Hc.
  - exists l. split; [by apply lookup_app_l_Some|done].
Qed.

Lemma child_of_storedChild σ this c σ' r x :
  storedChild this σ = Some (c, σ') →
  c = length σ ∧ length σ' = S (length σ) ∧ this < length σ ∧
  (child_of σ' r x ↔ child_of σ r x ∨ (r = this ∧ x = length σ)).
Proof.
  unfold storedChild, alloc. intros H.
  destruct (σ !! this) as [l|] eqn:Hl; simplify_eq/=.
  pose proof (lookup_lt_Some _ _ _ Hl) as Hthis.
  split_and!; [done| |done|].
  { rewrite length_insert, length_app. simpl. lia. }
  unfold child_of. split.
  - intros (l' & Hl' & Hx). destruct (decide (r = this)) as [->|Hne].
    + rewrite list_lookup_insert_eq in Hl' by (rewrite length_app; lia).
      simplify_eq/=. apply elem_of_app in Hx as [Hx|Hx%list_elem_of_singleton].
      * left. by exists l.
      * by right.
    + rewrite list_lookup_insert_ne in Hl' by done.
      apply lookup_app_Some in Hl' as [Hl'|[_ Hl']]; [left; by exists l'|].
      apply list_lookup_singleton_Some in Hl' as [_ <-]. by apply elem_of_nil in Hx.
  - intros [(l' & Hl' & Hx)|[-> ->]].
    + destruct (decide (r = this)) as [->|Hne].
      * simplify_eq. eexists. split.
        { apply list_lookup_insert_eq. rewrite length_app. lia. }
        simpl. apply elem_of_app. by left.
      * exists l'. rewrite list_lookup_insert_ne by done.
        split; [by apply lookup_app_l_Some|done].
    + eexists. split.
      { apply list_lookup_insert_eq. rewrite length_app. lia. }
      simpl. apply elem_of_app. right. by apply list_elem_of_singleton.
Qed.

Lemma forest_alloc σ : forest σ → forest (alloc σ).2.
Proof.
  intros [Hlater Hparent Hnd]. split.
  - intros r c Hc. apply (proj1 (child_of_alloc σ r c)), Hlater in Hc.
    unfold alloc. simpl. rewrite length_app. simpl. lia.
  - intros r r' c Hc Hc'.
    apply (proj1 (child_of_alloc σ r c)) in Hc.
    apply (proj1 (child_of_alloc σ r' c)) in Hc'. by eapply Hparent.
  - intros r l Hl. unfold alloc in Hl. simpl in Hl.
    apply lookup_app_Some in Hl as [Hl|[_ Hl]]; [by eapply Hnd|].
    apply list_lookup_singleton_Some in Hl as [_ <-]. constructor.
Qed.

Lemma forest_storedChild σ this c σ' :
  forest σ → storedChild this σ = Some (c, σ') → forest σ'.
Proof.
  intros [Hlater Hparent Hnd] Hsc.
  pose proof (λ r x, child_of_storedChild _ _ _ _ r x Hsc) as Hco.
  destruct (Hco 0 0) as (-> & Hlen & Hthis & _).
  assert (∀ r x, child_of σ' r x → child_of σ r x ∨ r = this ∧ x = length σ)
    as Hdown by (intros r x; apply Hco).
  split.
  - intros r x Hc. rewrite Hlen.
    destruct (Hdown _ _ Hc) as [Hc0|[-> ->]]; [apply Hlater in Hc0|]; lia.
  - intros r r' x Hc Hc'.
    destruct (Hdown _ _ Hc) as [Hc0|[-> ->]],
             (Hdown _ _ Hc') as [Hc0'|[-> ?]]; try done.
    + by eapply Hparent.
    + apply Hlater in Hc0. lia.
    + apply Hlater in Hc0'. lia.
  - intros r l Hl. unfold storedChild, alloc in Hsc.
    destruct (σ !! this) as [l0|] eqn:Hl0; simplify_eq/=.
    destruct (decide (r = this)) as [->|Hne].
    + rewrite list_lookup_insert_eq in Hl by (rewrite length_app; lia).
      simplify_eq/=. apply NoDup_app. split_and!.
      * by eapply Hnd.
      * intros x Hx ->%list_elem_of_singleton.
        assert (this < length σ < length σ); [|lia].
        apply Hlater. by exists l0.
      * apply NoDup_singleton.
    + rewrite list_lookup_insert_ne in Hl by done.
      apply lookup_app_Some in Hl as [Hl|[_ Hl]]; [by eapply Hnd|].
      apply list_lookup_singleton_Some in Hl as [_ <-]. constructor.
Qed.

(** What one operation does to the store: loggers are only added,
    [children] arrays only grow, and only by loggers made on the
    spot. *)
Lemma call_child_of o σ σ' :
  call o σ = Some σ' →
  length σ ≤ length σ' ∧
  (∀ r x, child_of σ r x → child_of σ' r x) ∧
  (∀ r x, child_of σ' r x → child_of σ r x ∨ length σ ≤ x).
Proof.
  destruct o as [name lv|this|this|this lv]; simpl; intros H.
  - simplify_eq. split_and!.
    + rewrite length_app. lia.
    + intros r x. by rewrite (child_of_alloc σ).
    + intros r x. rewrite (child_of_alloc σ). auto.
  - destruct (storedChild this σ) as [[c σ1]|] eqn:Hsc; simplify_eq/=.
    pose proof (λ r x, child_of_storedChild _ _ _ _ r x Hsc) as Hco.
    destruct (Hco 0 0) as (-> & Hlen & Hthis & _). split_and!.
    + lia.
    + intros r x Hc. apply Hco. by left.
    + intros r x Hc. apply Hco in Hc. destruct Hc as [?|[_ ->]]; [by left|right; lia].
  - unfold child in H. destruct (σ !! this); simplify_eq/=. split_and!.
    + rewrite length_app. lia.
    + intros r x. by rewrite (child_of_alloc σ).
    + intros r x. rewrite (child_of_alloc σ). auto.
  - destruct (set_level (length σ) lv σ this); simplify_eq/=. auto.
Qed.

Lemma call_forest o σ σ' : forest σ → call o σ = Some σ' → forest σ'.
Proof.
  intros Hf. destruct o as [name lv|this|this|this lv]; simpl; intros H.
  - simplify_eq. by apply forest_alloc.
  - destruct (storedChild this σ) as [[c σ1]|] eqn:Hsc; simplify_eq/=.
    by eapply forest_storedChild.
  - unfold child in H. destruct (σ !! this); simplify_eq/=. by apply forest_alloc.
  - destruct (set_level (length σ) lv σ this); by simplify_eq/=.
Qed.

Lemma call_mLevel o σ σ' :
  Forall (λ l, mLevel l = None) σ → call o σ = Some σ' →
  Forall (λ l, mLevel l = None) σ'.
Proof.
  intros Hm. destruct o as [name lv|this|this|this lv]; simpl; intros H.
  - simplify_eq. apply Forall_app. split; [done|]. by repeat constructor.
  - unfold storedChild, alloc in H.
    destruct (σ !! this) as [l|] eqn:Hl; simplify_eq/=.
    apply Forall_insert.
    + apply Forall_app. split; [done|]. by repeat constructor.
    + simpl. by eapply (Forall_lookup_1 _ _ _ _ Hm).
  - unfold child in H. destruct (σ !! this); simplify_eq/=.
    apply Forall_app. split; [done|]. by repeat constructor.
  - destruct (set_level (length σ) lv σ this); by simplify_eq/=.
Qed.

Lemma calls_app os1 os2 σ :
  calls (os1 ++ os2) σ = σ1 ← calls os1 σ; calls os2 σ1.
Proof.
  revert σ. induction os1 as [|o os1 IH]; intros σ; simpl; [done|].
  destruct (call o σ); simpl; [apply IH|done].
Qed.

Lemma calls_forest os : ∀ σ σ', forest σ → calls os σ = Some σ' → forest σ'.
Proof.
  induction os as [|o os IH]; intros σ σ' Hf H; simpl in H; [by simplify_eq|].
  destruct (call o σ) as [σ1|] eqn:Hc; [|done].
  eapply IH; [|done]. by eapply call_forest.
Qed.

Lemma calls_child_of os : ∀ σ σ',
  calls os σ = Some σ' →
  length σ ≤ length σ' ∧
  (∀ r x, child_of σ r x → child_of σ' r x) ∧
  (∀ r x, child_of σ' r x → child_of σ r x ∨ length σ ≤ x).
Proof.
  induction os as [|o os IH]; intros σ σ' H; simpl in H.
  - simplify_eq. auto.
  - destruct (call o σ) as [σ1|] eqn:Hc; [|done].
    destruct (call_child_of _ _ _ Hc) as (Hl1 & Hup1 & Hdown1).
    destruct (IH _ _ H) as (Hl2 & Hup2 & Hdown2). split_and!.
    + lia.
    + auto.
    + intros r x [Hx%Hdown1|?]%Hdown2; [destruct Hx; auto|]; right; lia.
Qed.

Lemma calls_mLevel os : ∀ σ σ',
  Forall (λ l, mLevel l = None) σ → calls os σ = Some σ' →
  Forall (λ l, mLevel l = None) σ'.
Proof.
  induction os as [|o os IH]; intros σ σ' Hm H; simpl in H; [by simplify_eq|].
  destruct (call o σ) as [σ1|] eqn:Hc; [|done].
  eapply IH; [|done]. by eapply call_mLevel.
Qed.

Lemma stored_under_mono σ σ' r i :
  (∀ r x, child_of σ r x → child_of σ' r x) →
  stored_under σ r i → stored_under σ' r i.
Proof.
  intros Hup. induction 1 as [|r c i Hc _ IH]; [done|].
  eapply rtc_l; [by apply Hup|done].
Qed.

(** X17. Setting [level] on a logger assigns the level to the pino
    logger of that logger and of every logger made from it through
    [storedChild] calls only, to each once and the logger's own first,
    and to no other; it ends whatever loggers were made before (as
    many steps as there are loggers suffice). *)
Theorem level_setter_reaches_stored_descendants os σ this newLevel :
  calls os [] = Some σ →
  this < length σ →
  ∃ tr,
    set_level (length σ) newLevel σ this = Some tr ∧
    NoDup tr.*1 ∧
    (∀ i, i ∈ tr.*1 ↔ stored_under σ this i) ∧
    (∀ x, x ∈ tr → x.2 = newLevel) ∧
    head tr = Some (this, newLevel).
Proof.
  intros Hos Hthis.
  pose proof (calls_forest _ _ _ forest_nil Hos) as Hf.
  destruct (set_level_reaches σ newLevel Hf (length σ) this Hthis) as (tr & Htr & Hr);
    [lia|].
  by exists tr.
Qed.

Lemma level_setter_reaches_stored_descendants_witness :
  let os := [GetLogger "api" level_debug; StoredChild 0; Child 0; StoredChild 1;
             StoredChild 0] in
  let σ := [mk [1; 4] None; mk [3] None; mk [] None; mk [] None; mk [] None] in
  calls os [] = Some σ ∧ 0 < length σ ∧
  ∃ tr,
    set_level (length σ) level_warn σ 0 = Some tr ∧
    NoDup tr.*1 ∧
    (∀ i, i ∈ tr.*1 ↔ stored_under σ 0 i) ∧
    (∀ x, x ∈ tr → x.2 = level_warn) ∧
    head tr = Some (0, level_warn).
Proof.
  intros os σ.
  assert (calls os [] = Some σ) as Hos by reflexivity.
  assert (0 < length σ) as Hlt by (simpl; lia).
  split; [exact Hos|]. split; [exact Hlt|].
  exact (level_setter_reaches_stored_descendants os σ 0 level_warn Hos Hlt).
Defined.

(** X18. A logger made with [storedChild] follows its maker: whatever
    is done with loggers afterwards, setting [level] on the maker, or on
    a logger the maker was stored under, assigns the level to it. *)
Theorem stored_child_follows_its_maker os1 os2 σ1 σ this r newLevel :
  calls os1 [] = Some σ1 →
  calls (StoredChild this :: os2) σ1 = Some σ →
  stored_under σ1 r this →
  ∃ tr,
    set_level (length σ) newLevel σ r = Some tr ∧
    (length σ1, newLevel) ∈ tr.
Proof.
  intros Hos1 Hos2 Hr.
  pose proof (calls_forest _ _ _ forest_nil Hos1) as Hf1.
  pose proof (calls_forest _ _ _ Hf1 Hos2) as Hf.
  destruct (calls_child_of _ _ _ Hos2) as (Hlen & Hup & _).
  simpl in Hos2.
  destruct (storedChild this σ1) as [[c σ2]|] eqn:Hsc; [|done]. simpl in Hos2.
  destruct (calls_child_of _ _ _ Hos2) as (Hlen2 & Hup2 & _).
  pose proof (λ r x, child_of_storedChild _ _ _ _ r x Hsc) as Hco.
  destruct (Hco 0 0) as (-> & Hlen1 & Hthis & _).
  assert (stored_under σ r (length σ1)) as Hunder.
  { eapply rtc_r.
    - eapply stored_under_mono; [|exact Hr]. done.
    - apply Hup2, Hco. by right. }
  assert (r < length σ) as Hrlt.
  { apply (stored_under_le _ _ _ Hf) in Hunder. lia. }
  destruct (set_level_reaches σ newLevel Hf (length σ) r Hrlt)
    as (tr & Htr & _ & Hin & Hlv & _); [lia|].
  exists tr. split; [done|].
  apply Hin, list_elem_of_fmap in Hunder as ([i lv] & Hi & Hx).
  simpl in Hi. subst i. by rewrite <- (Hlv _ Hx).
Qed.

Lemma stored_child_follows_its_maker_witness :
  let os1 := [GetLogger "api" level_debug; StoredChild 0] in
  let os2 := [Child 2; StoredChild 0] in
  let σ1 := [mk [1] None; mk [] None] in
  let σ := [mk [1; 4] None; mk [2] None; mk [] None; mk [] None; mk [] None] in
  calls os1 [] = Some σ1 ∧
  calls (StoredChild 1 :: os2) σ1 = Some σ ∧
  stored_under σ1 0 1 ∧
  ∃ tr,
    set_level (length σ) level_error σ 0 = Some tr ∧
    (length σ1, level_error) ∈ tr.
Proof.
  intros os1 os2 σ1 σ.
  assert (calls os1 [] = Some σ1) as Hos1 by reflexivity.
  assert (calls (StoredChild 1 :: os2) σ1 = Some σ) as Hos2 by reflexivity.
  assert (stored_under σ1 0 1) as Hr.
  { apply rtc_once. exists (mk [1] None). split; [reflexivity|]. by left. }
  split; [exact Hos1|]. split; [exact Hos2|]. split; [exact Hr|].
  exact (stored_child_follows_its_maker os1 os2 σ1 σ 1 0 level_error Hos1 Hos2 Hr).
Defined.

(** X19. A logger made with [child] follows no other logger: whatever
    is done with loggers afterwards, a [level] setter call assigns to it
    only when it is called on that logger itself. *)
Theorem plain_child_follows_no_other os1 os2 σ1 σ this r newLevel tr :
  calls os1 [] = Some σ1 →
  calls (Child this :: os2) σ1 = Some σ →
  set_level (length σ) newLevel σ r = Some tr →
  (length σ1 ∈ tr.*1 ↔ r = length σ1).
Proof.
  intros Hos1 Hos2 Htr.
  pose proof (calls_forest _ _ _ forest_nil Hos1) as Hf1.
  pose proof (calls_forest _ _ _ Hf1 Hos2) as Hf.
  simpl in Hos2. unfold child in Hos2.
  destruct (σ1 !! this) as [l|] eqn:Hl; [|done]. simpl in Hos2.
  destruct (calls_child_of _ _ _ Hos2) as (Hlen & _ & Hdown).
  rewrite length_app in Hlen, Hdown. simpl in Hlen, Hdown.
  assert (r < length σ) as Hrlt.
  { destruct (length σ) as [|n] eqn:Hn; [done|]. simpl in Htr.
    destruct (σ !! r) eqn:Hr; [|done]. rewrite <- Hn. by eapply lookup_lt_Some. }
  destruct (set_level_reaches σ newLevel Hf (length σ) r Hrlt)
    as (tr' & Htr' & _ & Hin & _); [lia|].
  simplify_eq. rewrite Hin. split; [|by intros ->].
  intros Hunder. apply rtc_inv_r in Hunder as [->|(p & _ & Hp)]; [done|].
  destruct (Hdown _ _ Hp) as [Hp1|?]; [|lia].
  apply (proj1 (child_of_alloc σ1 p (length σ1))), (forest_later _ Hf1) in Hp1. lia.
Qed.

Lemma plain_child_follows_no_other_witness :
  let os1 := [GetLogger "api" level_debug] in
  let os2 := [StoredChild 0; StoredChild 1] in
  let σ1 := [mk [] None] in
  let σ := [mk [2] None; mk [3] None; mk [] None; mk [] None] in
  let tr := [(0, level_silent); (2, level_silent)] in
  calls os1 [] = Some σ1 ∧
  calls (Child 0 :: os2) σ1 = Some σ ∧
  set_level (length σ) level_silent σ 0 = Some tr ∧
  (length σ1 ∈ tr.*1 ↔ 0 = length σ1).
Proof.
  intros os1 os2 σ1 σ tr.
  assert (calls os1 [] = Some σ1) as Hos1 by reflexivity.
  assert (calls (Child 0 :: os2) σ1 = Some σ) as Hos2 by reflexivity.
  assert (set_level (length σ) level_silent σ 0 = Some tr) as Htr by reflexivity.
  split; [exact Hos1|]. split; [exact Hos2|]. split; [exact Htr|].
  exact (plain_child_follows_no_other os1 os2 σ1 σ 0 0 level_silent tr Hos1 Hos2 Htr).
Defined.

(** X20. No operation of the class writes [mLevel]: whatever loggers
    were made and whatever levels were set, also on the logger itself,
    its [level] getter gives [undefined]. *)
Theorem level_getter_gives_undefined os σ this :
  calls os [] = Some σ →
  this < length σ →
  level this σ = Some None.
Proof.
  intros Hos Hthis.
  pose proof (calls_mLevel _ _ _ (Forall_nil_2 _) Hos) as Hm.
  destruct (lookup_lt_is_Some_2 σ this Hthis) as [l Hl].
  unfold level. rewrite Hl. simpl.
  by rewrite (Forall_lookup_1 _ _ _ _ Hm Hl).
Qed.

Lemma level_getter_gives_undefined_witness :
  let os := [GetLogger "api" level_info; SetLevel 0 level_warn; StoredChild 0;
             SetLevel 0 level_error] in
  let σ := [mk [1] None; mk [] None] in
  calls os [] = Some σ ∧ 0 < length σ ∧ level 0 σ = Some None.
Proof.
  intros os σ.
  assert (calls os [] = Some σ) as Hos by reflexivity.
  assert (0 < length σ) as Hlt by (simpl; lia).
  split; [exact Hos|]. split; [exact Hlt|].
  exact (level_getter_gives_undefined os σ 0 Hos Hlt).
Defined.

End LoggerFacts.
